(** * tech-land-tool: the pipeline orchestrator of [src/App.tsx]

    The React component [App] owns the shared state of the pipeline (the two
    dataset slots, their cached normalized records, the log and the last
    output bundle) and drives the transformation service through three
    asynchronous handlers.  This development embeds the handlers as state
    transformers, split at every [await], puts them in an event loop that
    offers exactly the events the rendered page offers, and proves the
    properties of the specification about them.

    The transformation service itself ([./services/transformer]) is called
    through [transformData]; what a call settles with is an input of the
    model.  The classifier is modelled in [Module Transformer]. *)

From stdpp Require Import base option list strings gmap.

Open Scope string_scope.
Open Scope list_scope.

(** ** The classifier and the reconciler *)

Module Transformer.

(** Modelled from the spec: the record types of the transformation service
    ([src/services/transformer] is not part of the sources).  A normalized
    record is keyed by its land identifier; its other columns are kept as
    they are. *)
Definition Fields := list (string * string).

Record InputRecord := { in_key : string; in_fields : Fields }.
Record ResultRecord := { res_key : string; res_fields : Fields }.

(** Modelled from the spec: section 3, ReconciliationOutcome
    [{ key, input, results, multiplicity: {inputCount, resultsCount} }]. *)
Record ReconciliationOutcome := {
  key : string;
  input : option InputRecord;
  results : option ResultRecord;
  multiplicity : nat * nat
}.

Inductive Category := scouted | retrieved | contacted.

#[global] Instance Category_eq_dec : EqDecision Category :=
  ltac:(solve_decision).

(** Modelled from the spec: an output record merges the fields of the Input
    record with the Results fields when there are any (section 4.4). *)
Record OutputRecord := {
  out_key : string;
  out_input : Fields;
  out_results : Fields
}.

Record OutputBundle := {
  bundle_scouted : list OutputRecord;
  bundle_retrieved : list OutputRecord;
  bundle_contacted : list OutputRecord
}.

Section Rules.

(** The spec leaves open which Results field signals a milestone
    (section 9, open question): the two predicates are parameters. *)
Variable retrieval_milestone : ResultRecord -> bool.
Variable contact_milestone : ResultRecord -> bool.

(** Modelled from the spec: the counts of section 3,
    [multiplicity: {inputCount, resultsCount}]. *)
Definition count_key (k : string) (ks : list string) : nat :=
  length (filter (λ k', k' = k) ks).

(** Modelled from the spec: section 4.3, one outcome per distinct Input
    key, in the order the key first appears in [inputs]. *)
Fixpoint seed (seen : list string) (inputs : list InputRecord)
    : list InputRecord :=
  match inputs with
  | [] => []
  | i :: rest =>
      if decide (in_key i ∈ seen) then seed seen rest
      else i :: seed (in_key i :: seen) rest
  end.

(** Modelled from the spec: section 4.3, the key-equality lookup of the
    matching Results record. *)
Definition lookup_result (k : string) (rs : list ResultRecord)
    : option ResultRecord :=
  head (filter (λ r, res_key r = k) rs).

(** Modelled from the spec: section 4.3, [reconcile].  Outcomes are seeded
    from the Input keys; an outcome carries the matching Results record when
    there is one; Results keys without an Input counterpart produce no
    outcome. *)
Definition reconcile (inputs : list InputRecord) (rs : list ResultRecord)
    : list ReconciliationOutcome :=
  (λ i, {| key := in_key i;
           input := Some i;
           results := lookup_result (in_key i) rs;
           multiplicity := (count_key (in_key i) (in_key <$> inputs),
                            count_key (in_key i) (res_key <$> rs)) |})
    <$> seed [] inputs.

(** Modelled from the spec: section 4.4 and section 9, the classifier as
    an ordered list of [(predicate, category)] rules, the first matching
    rule wins; an outcome that no rule matches enters no sequence. *)
Definition rules : list ((ReconciliationOutcome -> bool) * Category) :=
  [ (λ o, match results o with None => true | Some _ => false end,
     scouted);
    (λ o, match results o with
          | Some r => retrieval_milestone r && negb (contact_milestone r)
          | None => false
          end,
     retrieved);
    (λ o, match results o with
          | Some r => contact_milestone r
          | None => false
          end,
     contacted) ].

(** Modelled from the spec: section 9, first-match-wins evaluation. *)
Fixpoint first_match (rs : list ((ReconciliationOutcome -> bool) * Category))
    (o : ReconciliationOutcome) : option Category :=
  match rs with
  | [] => None
  | (p, c) :: rest => if p o then Some c else first_match rest o
  end.

(** Modelled from the spec: the category section 4.4 assigns to an
    outcome, if any. *)
Definition categorise (o : ReconciliationOutcome) : option Category :=
  first_match rules o.

(** Modelled from the spec: section 4.4, the output record of an outcome
    (Results fields absent: left empty). *)
Definition merge (o : ReconciliationOutcome) : OutputRecord :=
  {| out_key := key o;
     out_input := from_option in_fields [] (input o);
     out_results := from_option res_fields [] (results o) |}.

(** Modelled from the spec: the output sequence of one category, in the
    order of the outcomes. *)
Definition select (c : Category) (outcomes : list ReconciliationOutcome)
    : list OutputRecord :=
  merge <$> filter (λ o, categorise o = Some c) outcomes.

(** Modelled from the spec: section 4.4, [classify]. *)
Definition classify (outcomes : list ReconciliationOutcome) : OutputBundle :=
  {| bundle_scouted := select scouted outcomes;
     bundle_retrieved := select retrieved outcomes;
     bundle_contacted := select contacted outcomes |}.

(** Modelled from the spec: the internal contract violation of the
    classifier (sections 2, 4.4 and 8): an outcome carries a Results record
    whose status signals neither a retrieval nor a contact milestone. *)
Definition violates (o : ReconciliationOutcome) : bool :=
  match results o with
  | Some r => negb (retrieval_milestone r) && negb (contact_milestone r)
  | None => false
  end.

(** Modelled from the spec: section 2 and section 8, the keys dropped with a
    diagnostic, those of the outcomes that violate the contract. *)
Definition dropped (outcomes : list ReconciliationOutcome) : list string :=
  key <$> filter (λ o, violates o = true) outcomes.

Definition keys (rs : list OutputRecord) : list string := out_key <$> rs.

Definition key_set (ks : list string) : gset string := list_to_set ks.

End Rules.

End Transformer.

(** ** The state of [App] and its handlers *)

Module App.

(** [type FileType = 'input' | 'results'] and the status of a slot. *)
Inductive FileType := input | results.
Inductive FileStatus := waiting | loading | valid | invalid.
Inductive LogType := info | error | success.

#[global] Instance FileType_eq_dec : EqDecision FileType :=
  ltac:(solve_decision).
#[global] Instance FileStatus_eq_dec : EqDecision FileStatus :=
  ltac:(solve_decision).
#[global] Instance LogType_eq_dec : EqDecision LogType :=
  ltac:(solve_decision).

Record LogEntry := { message : string; type : LogType; timestamp : string }.

(** Of a [File] the handlers read the name only. *)
Record File := { name : string }.

(** Rows are opaque to [App] (they are typed [any]): a row maps column
    headers to cells. *)
Definition Row := list (string * string).
Definition JsonData := list Row.

Record OutputData := {
  scouted : list Row;
  retrieved : list Row;
  contacted : list Row
}.

Inductive OutputKey := key_scouted | key_retrieved | key_contacted.

(** [outputData[key]] *)
Definition category (key : OutputKey) (o : OutputData) : list Row :=
  match key with
  | key_scouted => scouted o
  | key_retrieved => retrieved o
  | key_contacted => contacted o
  end.

Record ValidationResult := { isValid : bool; errors : list string }.

(** An object [{ [key in FileType]: A }]. *)
Record Slots (A : Type) := { of_input : A; of_results : A }.
Arguments of_input {A} _.
Arguments of_results {A} _.

Definition get {A} (t : FileType) (m : Slots A) : A :=
  match t with input => of_input m | results => of_results m end.

(** [{ ...prev, [type]: v }] *)
Definition set {A} (t : FileType) (v : A) (m : Slots A) : Slots A :=
  match t with
  | input => {| of_input := v; of_results := of_results m |}
  | results => {| of_input := of_input m; of_results := v |}
  end.

Definition other (t : FileType) : FileType :=
  match t with input => results | results => input end.

(** The [useState] cells and the [useRef] cell of the component. *)
Record State := {
  files : Slots (option File);
  fileStatus : Slots FileStatus;
  fileErrors : Slots (option string);
  logs : list LogEntry;
  isProcessing : bool;
  outputData : option OutputData;
  resetKey : nat;
  fileDataCache : Slots (option JsonData)
}.

Definition initial : State :=
  {| files := {| of_input := None; of_results := None |};
     fileStatus := {| of_input := waiting; of_results := waiting |};
     fileErrors := {| of_input := None; of_results := None |};
     logs := [];
     isProcessing := false;
     outputData := None;
     resetKey := 0;
     fileDataCache := {| of_input := None; of_results := None |} |}.

(** The setters; each takes the updater the source passes to it. *)
Definition setFiles (f : Slots (option File) -> Slots (option File))
    (s : State) : State :=
  {| files := f (files s); fileStatus := fileStatus s;
     fileErrors := fileErrors s; logs := logs s;
     isProcessing := isProcessing s; outputData := outputData s;
     resetKey := resetKey s; fileDataCache := fileDataCache s |}.

Definition setFileStatus (f : Slots FileStatus -> Slots FileStatus)
    (s : State) : State :=
  {| files := files s; fileStatus := f (fileStatus s);
     fileErrors := fileErrors s; logs := logs s;
     isProcessing := isProcessing s; outputData := outputData s;
     resetKey := resetKey s; fileDataCache := fileDataCache s |}.

Definition setFileErrors (f : Slots (option string) -> Slots (option string))
    (s : State) : State :=
  {| files := files s; fileStatus := fileStatus s;
     fileErrors := f (fileErrors s); logs := logs s;
     isProcessing := isProcessing s; outputData := outputData s;
     resetKey := resetKey s; fileDataCache := fileDataCache s |}.

Definition setLogs (f : list LogEntry -> list LogEntry) (s : State) : State :=
  {| files := files s; fileStatus := fileStatus s;
     fileErrors := fileErrors s; logs := f (logs s);
     isProcessing := isProcessing s; outputData := outputData s;
     resetKey := resetKey s; fileDataCache := fileDataCache s |}.

Definition setIsProcessing (b : bool) (s : State) : State :=
  {| files := files s; fileStatus := fileStatus s;
     fileErrors := fileErrors s; logs := logs s;
     isProcessing := b; outputData := outputData s;
     resetKey := resetKey s; fileDataCache := fileDataCache s |}.

Definition setOutputData (o : option OutputData) (s : State) : State :=
  {| files := files s; fileStatus := fileStatus s;
     fileErrors := fileErrors s; logs := logs s;
     isProcessing := isProcessing s; outputData := o;
     resetKey := resetKey s; fileDataCache := fileDataCache s |}.

Definition setResetKey (f : nat -> nat) (s : State) : State :=
  {| files := files s; fileStatus := fileStatus s;
     fileErrors := fileErrors s; logs := logs s;
     isProcessing := isProcessing s; outputData := outputData s;
     resetKey := f (resetKey s); fileDataCache := fileDataCache s |}.

(** Assignments to [fileDataCache.current]. *)
Definition setFileDataCache
    (f : Slots (option JsonData) -> Slots (option JsonData))
    (s : State) : State :=
  {| files := files s; fileStatus := fileStatus s;
     fileErrors := fileErrors s; logs := logs s;
     isProcessing := isProcessing s; outputData := outputData s;
     resetKey := resetKey s; fileDataCache := f (fileDataCache s) |}.

(** [new Date().toISOString()]: a handler reads the clock once for every
    entry it logs; [clock i] is the reading at its [i]-th call of [addLog]. *)
Definition Clock := nat -> string.

(** [addLog]: [setLogs(prev => [...prev, { message, type, timestamp }])]. *)
Definition addLog (now : string) (message : string) (type : LogType)
    (s : State) : State :=
  setLogs (λ prev, prev ++ [ {| message := message; type := type;
                                timestamp := now |} ]) s.

(** [errs.forEach(err => addLog(err, 'error'))], the first call being the
    [i]-th of the handler. *)
Fixpoint addLog_each (clock : Clock) (i : nat) (errs : list string)
    (s : State) : State :=
  match errs with
  | [] => s
  | err :: rest => addLog_each clock (S i) rest (addLog (clock i) err error s)
  end.

(** What an awaited call settles with: the value it resolves to, or the
    message of what it throws
    ([error instanceof Error ? error.message : String(error)]). *)
Inductive Settled (A : Type) := Returned (a : A) | Threw (errorMessage : string).
Arguments Returned {A} _.
Arguments Threw {A} _.

(** [const { jsonData, validation } = await transformData(type, file, addLog)];
    [jsonData] is typed [any] and may be missing. *)
Definition Ingested : Type := option JsonData * ValidationResult.

(** [handleFileChange], up to its [await]. *)
Definition handleFileChange_begin (file : File) (type : FileType)
    (s : State) : State :=
  let s := setFiles (set type (Some file)) s in
  let s := setOutputData None s in
  let s := setFileStatus (set type loading) s in
  setFileErrors (set type None) s.

(** [handleFileChange], from the moment [transformData] settles. *)
Definition handleFileChange_settle (clock : Clock) (file : File)
    (type : FileType) (r : Settled Ingested) (s : State) : State :=
  match r with
  | Returned (jsonData, validation) =>
      if isValid validation then
        let s := setFileDataCache (set type jsonData) s in
        let s := setFileStatus (set type valid) s in
        addLog (clock 0)
          ("'" +:+ name file +:+ "' loaded and validated successfully.")
          success s
      else
        let s := setFileDataCache (set type None) s in
        let s := setFileStatus (set type invalid) s in
        let firstError := head (errors validation) in
        let s := setFileErrors (set type firstError) s in
        addLog_each clock 0 (errors validation) s
  | Threw errorMessage =>
      let s := addLog (clock 0)
                 ("Error processing " +:+ name file +:+ ": " +:+ errorMessage)
                 error s in
      let s := setFileStatus (set type invalid) s in
      let s := setFileErrors (set type (Some errorMessage)) s in
      setFileDataCache (set type None) s
  end.

(** The guard of [handleRunTransformation]:
    [!fileDataCache.current.input || !fileDataCache.current.results]. *)
Definition cache_missing (s : State) : bool :=
  negb (bool_decide (is_Some (of_input (fileDataCache s))))
  || negb (bool_decide (is_Some (of_results (fileDataCache s)))).

(** [handleRunTransformation], up to its first [await] (the 100 ms timer);
    the boolean tells whether the run goes on or has returned. *)
Definition handleRunTransformation_begin (clock : Clock) (s : State)
    : State * bool :=
  if cache_missing s then
    (addLog (clock 0)
       "Both Input and Results files must be loaded and valid before running."
       error s,
     false)
  else
    let s := setIsProcessing true s in
    let s := setOutputData None s in
    let s := setLogs (λ _, []) s in
    (addLog (clock 0) "Starting transformation process..." info s, true).

(** After the timer: the two datasets that are passed to
    [transformData('process', null, addLog, ...)]. *)
Definition handleRunTransformation_call (s : State)
    : option JsonData * option JsonData :=
  (of_input (fileDataCache s), of_results (fileDataCache s)).

(** [handleRunTransformation], from the moment the processing call settles:
    the [try] body after the [await], [catch] and [finally]. *)
Definition handleRunTransformation_settle (clock : Clock)
    (r : Settled (option OutputData)) (s : State) : State :=
  let s :=
    match r with
    | Returned (Some output) =>
        let s := setOutputData (Some output) s in
        addLog (clock 0)
          "Transformation complete. Output files are ready for download."
          success s
    | Returned None =>
        addLog (clock 0)
          ("An unexpected error occurred during transformation: "
           +:+ "Transformation did not produce any output data.")
          error s
    | Threw errorMessage =>
        addLog (clock 0)
          ("An unexpected error occurred during transformation: "
           +:+ errorMessage)
          error s
    end in
  setIsProcessing false s.

(** The calls [handleDownload] makes to the spreadsheet encoder and to
    [saveAs], in the order of the source. *)
Inductive ExternalCall :=
| XLSX_json_to_sheet (rows : list Row)
| XLSX_book_new
| XLSX_book_append_sheet (sheetName : string)
| XLSX_write
| new_Blob
| saveAs (fileName : string).

Definition export_calls (rows : list Row) (fileName : string)
    : list ExternalCall :=
  [ XLSX_json_to_sheet rows; XLSX_book_new; XLSX_book_append_sheet "Sheet1";
    XLSX_write; new_Blob; saveAs fileName ].

(** What the external calls do: they all return, or one of them throws. *)
Inductive ExportStep :=
  at_json_to_sheet | at_book_new | at_book_append_sheet | at_write | at_Blob
| at_saveAs.

Definition step_index (c : ExportStep) : nat :=
  match c with
  | at_json_to_sheet => 0 | at_book_new => 1 | at_book_append_sheet => 2
  | at_write => 3 | at_Blob => 4 | at_saveAs => 5
  end.

Inductive Exporting :=
| all_return
| throws (c : ExportStep) (errorMessage : string).

(** [handleDownload]: the new state and the external calls made. *)
Definition handleDownload (key : OutputKey) (fileName : string)
    (clock : Clock) (x : Exporting) (s : State) : State * list ExternalCall :=
  match outputData s with
  | None =>
      (addLog (clock 0)
         ("No data available to download for " +:+ fileName +:+ ".") error s,
       [])
  | Some o =>
      if bool_decide (length (category key o) = 0) then
        (addLog (clock 0)
           ("No data available to download for " +:+ fileName +:+ ".") error s,
         [])
      else
        let s := addLog (clock 0) ("Generating " +:+ fileName +:+ "...") info s in
        match x with
        | all_return =>
            (addLog (clock 1) (fileName +:+ " downloaded successfully.")
               success s,
             export_calls (category key o) fileName)
        | throws c errorMessage =>
            (addLog (clock 1)
               ("Failed to generate " +:+ fileName +:+ ": " +:+ errorMessage)
               error s,
             take (S (step_index c)) (export_calls (category key o) fileName))
        end
  end.

(** [handleReset] *)
Definition handleReset (s : State) : State :=
  let s := setFiles (λ _, {| of_input := None; of_results := None |}) s in
  let s := setFileStatus
             (λ _, {| of_input := waiting; of_results := waiting |}) s in
  let s := setFileErrors (λ _, {| of_input := None; of_results := None |}) s in
  let s := setLogs (λ _, []) s in
  let s := setOutputData None s in
  let s := setFileDataCache
             (λ _, {| of_input := None; of_results := None |}) s in
  setResetKey (λ prev, prev + 1) s.

(** [const canRun = fileStatus.input === 'valid' && fileStatus.results === 'valid'] *)
Definition canRun (s : State) : bool :=
  bool_decide (of_input (fileStatus s) = valid)
  && bool_decide (of_results (fileStatus s) = valid).

(** The file name each download button passes. *)
Definition download_name (key : OutputKey) : string :=
  match key with
  | key_scouted => "1_Scouted_Lands.xlsx"
  | key_retrieved => "2_Retrieved_Data.xlsx"
  | key_contacted => "3_Contacted_Data.xlsx"
  end.

(** ** The event loop

    Between two events the page is rendered from the current state, so an
    event is offered exactly when its control is rendered and enabled:
    - the two dropzones are always there ([Dropzone] calls [onFileSelect]
      whatever the status is);
    - the run button has [disabled={!canRun || isProcessing}];
    - the reset button is rendered when some slot is not [waiting];
    - the download buttons are rendered when [outputData] is not null.
    The handlers that are suspended at an [await] are part of the
    configuration; they resume when what they wait for settles. *)

Inductive RunStage :=
| awaiting_timer
| awaiting_process (inputData resultsData : option JsonData).

Record Config := {
  app : State;
  ingesting : list (FileType * File);
  running : list RunStage
}.

Definition start : Config :=
  {| app := initial; ingesting := []; running := [] |}.

Inductive Event :=
| select_file (type : FileType) (file : File)
| ingest_settles (i : nat) (r : Settled Ingested) (clock : Clock)
| click_run (clock : Clock)
| timer_fires (j : nat)
| process_settles (j : nat) (r : Settled (option OutputData)) (clock : Clock)
| sink_log (message : string) (type : LogType) (now : string)
| click_download (key : OutputKey) (x : Exporting) (clock : Clock)
| click_reset.

(** [disabled={!canRun || isProcessing}] on the run button.  Modelled from
    the spec: the [Button] component is not part of the sources; a disabled
    button delivers no click (section 5: the processing flag blocks
    re-entrant invocation). *)
Definition run_enabled (s : State) : bool :=
  negb (negb (canRun s) || isProcessing s).

Definition reset_rendered (s : State) : bool :=
  bool_decide (of_input (fileStatus s) ≠ waiting)
  || bool_decide (of_results (fileStatus s) ≠ waiting).

Definition download_rendered (s : State) : bool :=
  bool_decide (is_Some (outputData s)).

Definition is_processing_call (r : RunStage) : bool :=
  match r with awaiting_process _ _ => true | awaiting_timer => false end.

(** A call of [transformData] is in flight: it holds the [addLog] sink. *)
Definition transformer_active (c : Config) : bool :=
  negb (bool_decide (ingesting c = []))
  || existsb is_processing_call (running c).

Definition step (e : Event) (c : Config) : option Config :=
  match e with
  | select_file type file =>
      Some {| app := handleFileChange_begin file type (app c);
              ingesting := ingesting c ++ [(type, file)];
              running := running c |}
  | ingest_settles i r clock =>
      match ingesting c !! i with
      | Some (type, file) =>
          Some {| app := handleFileChange_settle clock file type r (app c);
                  ingesting := delete i (ingesting c);
                  running := running c |}
      | None => None
      end
  | click_run clock =>
      if run_enabled (app c) then
        let (s, started) := handleRunTransformation_begin clock (app c) in
        Some {| app := s;
                ingesting := ingesting c;
                running := if started then running c ++ [awaiting_timer]
                           else running c |}
      else None
  | timer_fires j =>
      match running c !! j with
      | Some awaiting_timer =>
          let (i, r) := handleRunTransformation_call (app c) in
          Some {| app := app c;
                  ingesting := ingesting c;
                  running := <[j := awaiting_process i r]> (running c) |}
      | _ => None
      end
  | process_settles j r clock =>
      match running c !! j with
      | Some (awaiting_process _ _) =>
          Some {| app := handleRunTransformation_settle clock r (app c);
                  ingesting := ingesting c;
                  running := delete j (running c) |}
      | _ => None
      end
  | sink_log message type now =>
      if transformer_active c then
        Some {| app := addLog now message type (app c);
                ingesting := ingesting c;
                running := running c |}
      else None
  | click_download key x clock =>
      if download_rendered (app c) then
        Some {| app := (handleDownload key (download_name key) clock x (app c)).1;
                ingesting := ingesting c;
                running := running c |}
      else None
  | click_reset =>
      if reset_rendered (app c) then
        Some {| app := handleReset (app c);
                ingesting := ingesting c;
                running := running c |}
      else None
  end.

Fixpoint exec (tr : list Event) (c : Config) : option Config :=
  match tr with
  | [] => Some c
  | e :: rest =>
      match step e c with
      | Some c' => exec rest c'
      | None => None
      end
  end.

Definition reachable (c : Config) : Prop :=
  ∃ tr, exec tr start = Some c.

(** *** Notions the properties are stated with *)

(** A processing run fails when [transformData('process', ...)] throws, or
    resolves without an [output] (the handler then throws itself). *)
Definition fails (r : Settled (option OutputData)) : bool :=
  match r with
  | Returned (Some _) => false
  | Returned None | Threw _ => true
  end.

(** The status a settled ingestion leaves in its slot. *)
Definition verdict (r : Settled Ingested) : FileStatus :=
  match r with
  | Returned (_, validation) => if isValid validation then valid else invalid
  | Threw _ => invalid
  end.

(** The selections of slot [t] that have not settled yet. *)
Definition pending_on (t : FileType) (c : Config) : list (FileType * File) :=
  filter (λ p, p.1 = t) (ingesting c).

(** Events that write the status of slot [t] other than by settling. *)
Definition interferes (t : FileType) (e : Event) : bool :=
  match e with
  | select_file t' _ => bool_decide (t' = t)
  | click_reset => true
  | _ => false
  end.

(** The events that empty the log: a reset, and a click on the run button
    that gets past the guard of the handler. *)
Definition clears_log (e : Event) (c : Config) : bool :=
  match e with
  | click_reset => true
  | click_run _ => negb (cache_missing (app c))
  | _ => false
  end.

(** The entries [handleFileChange] logs for the errors of a failed
    validation. *)
Definition error_entries (clock : Clock) (errs : list string) : list LogEntry :=
  imap (λ i err, {| message := err; type := error; timestamp := clock i |}) errs.

(** Events of the user, as opposed to the settling of what is awaited. *)
Definition is_user (e : Event) : bool :=
  match e with
  | select_file _ _ | click_run _ | click_download _ _ _ | click_reset => true
  | _ => false
  end.

Definition quiescent (c : Config) : bool :=
  bool_decide (ingesting c = []) && bool_decide (running c = []).

(** One operation of the user, followed until nothing is awaited any more. *)
Definition operation (tr : list Event) : Prop :=
  match tr with
  | [] => False
  | e :: rest => is_user e = true ∧ Forall (λ e', is_user e' = false) rest
  end.

(** The configurations reached when the user waits for each operation to
    complete before starting the next one. *)
Inductive reachable_in_turn : Config -> Prop :=
| in_turn_start : reachable_in_turn start
| in_turn_next c tr c' :
    reachable_in_turn c ->
    operation tr ->
    exec tr c = Some c' ->
    quiescent c' = true ->
    reachable_in_turn c'.

Definition both_valid (s : State) : Prop :=
  of_input (fileStatus s) = valid ∧ of_results (fileStatus s) = valid.

Definition both_cached (s : State) : Prop :=
  is_Some (of_input (fileDataCache s)) ∧ is_Some (of_results (fileDataCache s)).

(** At most one run is in flight, [isProcessing] tells whether there is one,
    and no bundle is shown while there is. *)
Definition one_run (c : Config) : Prop :=
  match running c with
  | [] => isProcessing (app c) = false
  | [_] => isProcessing (app c) = true ∧ outputData (app c) = None
  | _ => False
  end.

(** While an operation of the user completes: either the bundle is gone and
    no run is in flight, or no ingestion is in flight and the pair of
    datasets is valid and cached. *)
Definition in_operation (c : Config) : Prop :=
  (outputData (app c) = None ∧ running c = [])
  ∨ (ingesting c = [] ∧ both_valid (app c) ∧ both_cached (app c)).

(** No selection of slot [t] is in flight, or only the selection of [file]
    is and the slot shows [loading]. *)
Definition single_selection (t : FileType) (file : File) (c : Config) : Prop :=
  pending_on t c = []
  ∨ (pending_on t c = [(t, file)] ∧ get t (fileStatus (app c)) = loading).

(** Events that leave the slots, the cache and the runs alone: an entry
    logged through the sink, a download. *)
Definition idle (e : Event) : bool :=
  match e with
  | sink_log _ _ _ | click_download _ _ _ => true
  | _ => false
  end.

(** Runs kept apart from what changes the slots: no file is selected and no
    reset is made while a run is in flight, and no run is started while an
    ingestion is in flight.  Ingestions may overlap one another. *)
Definition apart (e : Event) (c : Config) : bool :=
  match e with
  | select_file _ _ | click_reset => bool_decide (running c = [])
  | click_run _ => bool_decide (ingesting c = [])
  | _ => true
  end.

Fixpoint exec_apart (tr : list Event) (c : Config) : option Config :=
  match tr with
  | [] => Some c
  | e :: rest =>
      if apart e c then
        match step e c with
        | Some c' => exec_apart rest c'
        | None => None
        end
      else None
  end.

(** *** Sample data *)

Definition tick : Clock := λ _, "2024-01-01T00:00:00.000Z".

Definition file_a : File := {| name := "input.xlsx" |}.
Definition file_b : File := {| name := "results.xlsx" |}.
Definition file_c : File := {| name := "input_v2.xlsx" |}.

Definition rows_a : JsonData := [[("id", "A1"); ("area", "10")]].
Definition rows_b : JsonData := [[("id", "A1"); ("status", "contacted")]].

Definition passes (d : JsonData) : Settled Ingested :=
  Returned (Some d, {| isValid := true; errors := [] |}).

Definition rejects (errs : list string) : Settled Ingested :=
  Returned (None, {| isValid := false; errors := errs |}).

Definition bundle : OutputData :=
  {| scouted := []; retrieved := [];
     contacted := [[("id", "A1"); ("area", "10"); ("status", "contacted")]] |}.

(** Both files are loaded and validated, one after the other. *)
Definition load_both : list Event :=
  [ select_file input file_a; ingest_settles 0 (passes rows_a) tick;
    select_file results file_b; ingest_settles 0 (passes rows_b) tick ].

(** A run that completes with [bundle]. *)
Definition good_run : list Event :=
  [ click_run tick; timer_fires 0; process_settles 0 (Returned (Some bundle)) tick ].

(** A run whose processing call throws. *)
Definition bad_run : list Event :=
  [ click_run tick; timer_fires 0; process_settles 0 (Threw "empty input") tick ].

(** A second Input file is dropped before the first has been validated;
    the first passes. *)
Definition overlapping : list Event :=
  [ select_file input file_a; select_file input file_c;
    ingest_settles 0 (passes rows_a) tick ].

(** A run is started, a new Input file is dropped while it is in flight,
    the run completes, then the new file is rejected. *)
Definition reupload_during_run : list Event :=
  load_both
  ++ [ click_run tick; select_file input file_c; timer_fires 0;
       process_settles 0 (Returned (Some bundle)) tick;
       ingest_settles 0 (rejects ["missing required column: id"]) tick ].

(** A run is started, a new Input file is dropped and rejected during the
    100 ms delay, then the timer fires. *)
Definition reject_during_delay : list Event :=
  load_both
  ++ [ click_run tick; select_file input file_c;
       ingest_settles 0 (rejects ["missing required column: id"]) tick;
       timer_fires 0 ].

(** The two files are dropped one right after the other and validated in
    the opposite order; then a run completes. *)
Definition both_at_once : list Event :=
  [ select_file input file_a; select_file results file_b;
    ingest_settles 1 (passes rows_b) tick;
    ingest_settles 0 (passes rows_a) tick ]
  ++ good_run.

(** The configuration a trace leads to ([start] when it cannot be run). *)
Definition after (tr : list Event) : Config := default start (exec tr start).

End App.

(** ** The dropzone of [src/components/Dropzone.tsx] *)

Module Dropzone.
Import App.

(** [DropzoneProps], without the [onFileSelect] callback: the calls of the
    callback are among the effects of the handlers. *)
Record DropzoneProps := {
  title : string;
  description : string;
  status : FileStatus;
  fileName : option string;
  errorMessage : option string
}.

Inductive Icon := SpinnerIcon | FileTextIcon | AlertIcon | UploadIcon.

Record StatusContent := {
  icon : Icon;
  text : string;
  color : string;
  borderColor : string
}.

(** [a || b] on an optional string: [undefined], [null] and the empty
    string are falsy. *)
Definition or_else (a : option string) (b : string) : string :=
  match a with
  | Some s => if decide (s = "") then b else s
  | None => b
  end.

(** [getStatusContent] *)
Definition getStatusContent (p : DropzoneProps) : StatusContent :=
  match status p with
  | loading =>
      {| icon := SpinnerIcon; text := "Processing...";
         color := "text-green-400"; borderColor := "border-green-500" |}
  | valid =>
      {| icon := FileTextIcon; text := or_else (fileName p) "File Validated";
         color := "text-green-400"; borderColor := "border-green-500" |}
  | invalid =>
      {| icon := AlertIcon; text := "Invalid File";
         color := "text-red-400"; borderColor := "border-red-500" |}
  | waiting =>
      {| icon := UploadIcon; text := "Drop File Here or Click to Upload";
         color := "text-slate-400"; borderColor := "border-slate-600" |}
  end.

(** The border class interpolated into [dropzoneClasses]:
    [isDragOver ? 'border-green-500' : borderColor]. *)
Definition border (isDragOver : bool) (p : DropzoneProps) : string :=
  if isDragOver then "border-green-500" else borderColor (getStatusContent p).

Definition dropzoneClasses (isDragOver : bool) (p : DropzoneProps) : string :=
  "relative flex flex-col items-center justify-center w-full h-48 border-2 "
  +:+ border isDragOver p
  +:+ " border-dashed rounded-lg cursor-pointer bg-slate-800/50 hover:bg-slate-800 transition-all duration-300 group".

(** The paragraphs rendered under the main text, one conditional each. *)
Record Paragraph := { className : string; content : string }.

Definition details (p : DropzoneProps) : list Paragraph :=
  (if decide (status p = waiting)
   then [ {| className := "text-xs text-slate-500";
             content := description p |} ]
   else [])
  ++ (if decide (status p = valid)
      then [ {| className := "text-xs text-green-500/80";
                content := "Ready for transformation" |} ]
      else [])
  ++ (if decide (status p = invalid)
      then match errorMessage p with
           | Some m =>
               if decide (m = "") then []
               else [ {| className := "text-xs text-red-400/90 mt-1 font-medium max-w-[250px] break-words";
                         content := m |} ]
           | None => []
           end
      else []).

(** What a handler does besides setting [isDragOver]. *)
Inductive Effect :=
| preventDefault
| stopPropagation
| onFileSelect (file : File).

(** A [FileList] that may be missing ([files && files.length > 0]). *)
Definition FileList := option (list File).

Definition select_first (files : FileList) : list Effect :=
  match files with
  | Some (file :: _) => [onFileSelect file]
  | _ => []
  end.

(** The handlers: the new value of [isDragOver] and the effects, in the
    order of the source. *)
Definition handleDragEnter (isDragOver : bool) : bool * list Effect :=
  (true, [preventDefault; stopPropagation]).

Definition handleDragLeave (isDragOver : bool) : bool * list Effect :=
  (false, [preventDefault; stopPropagation]).

Definition handleDragOver (isDragOver : bool) : bool * list Effect :=
  (isDragOver, [preventDefault; stopPropagation]).

Definition handleDrop (files : FileList) (isDragOver : bool)
    : bool * list Effect :=
  (false, [preventDefault; stopPropagation] ++ select_first files).

Definition handleFileChange (files : FileList) (isDragOver : bool)
    : bool * list Effect :=
  (isDragOver, select_first files).

Inductive DomEvent :=
| dragenter
| dragleave
| dragover
| drop (files : FileList)
| change (files : FileList).

Definition handle (e : DomEvent) (isDragOver : bool) : bool * list Effect :=
  match e with
  | dragenter => handleDragEnter isDragOver
  | dragleave => handleDragLeave isDragOver
  | dragover => handleDragOver isDragOver
  | drop files => handleDrop files isDragOver
  | change files => handleFileChange files isDragOver
  end.

(** A sequence of DOM events on one dropzone, from [useState(false)]: the
    final [isDragOver] and all the effects. *)
Fixpoint handle_all (es : list DomEvent) (isDragOver : bool)
    : bool * list Effect :=
  match es with
  | [] => (isDragOver, [])
  | e :: rest =>
      let (d, effs) := handle e isDragOver in
      let (d', effs') := handle_all rest d in
      (d', effs ++ effs')
  end.

(** The file a DOM event hands to [onFileSelect], if any. *)
Definition first_file (e : DomEvent) : option File :=
  match e with
  | drop (Some (file :: _)) | change (Some (file :: _)) => Some file
  | _ => None
  end.

Definition selected (effs : list Effect) : list File :=
  omap (λ eff, match eff with onFileSelect file => Some file | _ => None end)
       effs.

(** The events that set [isDragOver], with the value they set. *)
Definition sets_highlight (e : DomEvent) : option bool :=
  match e with
  | dragenter => Some true
  | dragleave | drop _ => Some false
  | dragover | change _ => None
  end.

End Dropzone.

(** ** The two dropzones inside [App] *)

Module Page.
Import App.

(** The props [App] passes to the dropzone of a slot. *)
Definition dropzone_props (t : FileType) (s : State) : Dropzone.DropzoneProps :=
  {| Dropzone.title :=
       match t with input => "Input File" | results => "Results File" end;
     Dropzone.description :=
       match t with
       | input => "e.g. Corrected_Input_Piemonte.xlsx"
       | results => "e.g. Campaign_Results.xlsx"
       end;
     Dropzone.status := get t (fileStatus s);
     Dropzone.fileName := name <$> get t (files s);
     Dropzone.errorMessage := get t (fileErrors s) |}.

(** [onFileSelect={(file) => handleFileChange(file, type)}]: the events of
    the loop the effects of a dropzone handler give rise to. *)
Definition selections (t : FileType) (effs : list Dropzone.Effect)
    : list Event :=
  omap (λ eff, match eff with
               | Dropzone.onFileSelect file => Some (select_file t file)
               | _ => None
               end) effs.

(** A DOM event on the dropzone of slot [t], whose [isDragOver] is [d]. *)
Definition dom_event (t : FileType) (d : bool) (e : Dropzone.DomEvent)
    (c : Config) : option Config :=
  exec (selections t (Dropzone.handle e d).2) c.

(** Two states hold the same in their slots. *)
Definition same_slots (s s' : State) : Prop :=
  files s' = files s ∧ fileStatus s' = fileStatus s
  ∧ fileErrors s' = fileErrors s ∧ fileDataCache s' = fileDataCache s.

Definition is_reset (e : Event) : bool :=
  match e with click_reset => true | _ => false end.

(** A slot at rest: what it holds in each status. *)
Definition slot_rest (t : FileType) (s : State) : Prop :=
  match get t (fileStatus s) with
  | waiting =>
      get t (files s) = None ∧ get t (fileErrors s) = None
      ∧ get t (fileDataCache s) = None
  | loading => False
  | valid => is_Some (get t (files s)) ∧ get t (fileErrors s) = None
  | invalid => is_Some (get t (files s)) ∧ get t (fileDataCache s) = None
  end.

(** While an operation completes: at most the one ingestion it started is in
    flight, its slot shows [loading], the other slot is at rest. *)
Definition slots_in_operation (c : Config) : Prop :=
  match ingesting c with
  | [] => ∀ t, slot_rest t (app c)
  | [(t, file)] =>
      get t (fileStatus (app c)) = loading
      ∧ is_Some (get t (files (app c)))
      ∧ get t (fileErrors (app c)) = None
      ∧ slot_rest (other t) (app c)
  | _ => False
  end.

(** The external call made at each step of an export. *)
Definition call_at (c : ExportStep) (rows : list Row) (fileName : string)
    : ExternalCall :=
  match c with
  | at_json_to_sheet => XLSX_json_to_sheet rows
  | at_book_new => XLSX_book_new
  | at_book_append_sheet => XLSX_book_append_sheet "Sheet1"
  | at_write => XLSX_write
  | at_Blob => new_Blob
  | at_saveAs => saveAs fileName
  end.

(** The external calls of a download reach [saveAs]. *)
Definition reaches_saveAs (x : Exporting) : bool :=
  match x with
  | all_return | throws at_saveAs _ => true
  | throws _ _ => false
  end.

End Page.

(** * Properties *)

(** ** The classifier partitions the reconciled keys *)

Module TransformerFacts.
Import Transformer.

Section Partition.

Variable retrieval_milestone : ResultRecord -> bool.
Variable contact_milestone : ResultRecord -> bool.

Abbreviation categorise := (categorise retrieval_milestone contact_milestone).
Abbreviation select := (select retrieval_milestone contact_milestone).
Abbreviation classify := (classify retrieval_milestone contact_milestone).
Abbreviation dropped := (dropped retrieval_milestone contact_milestone).
Abbreviation violates := (violates retrieval_milestone contact_milestone).

Lemma seed_spec seen inputs k :
  k ∈ in_key <$> seed seen inputs ↔ k ∈ in_key <$> inputs ∧ k ∉ seen.
Proof.
  revert seen. induction inputs as [|i rest IH]; intros seen; simpl.
  - rewrite elem_of_nil. tauto.
  - destruct (decide (in_key i ∈ seen)) as [Hin|Hout]; simpl.
    + rewrite IH, elem_of_cons. split; [tauto|].
      intros [[->|?] ?]; tauto.
    + rewrite !elem_of_cons, IH, elem_of_cons. split.
      * intros [->|(?&?)]; tauto.
      * intros [[->|?] ?]; [tauto|].
        destruct (decide (k = in_key i)); tauto.
Qed.

Lemma seed_NoDup seen inputs : NoDup (in_key <$> seed seen inputs).
Proof.
  revert seen. induction inputs as [|i rest IH]; intros seen; simpl.
  - constructor.
  - destruct (decide (in_key i ∈ seen)); simpl; [apply IH|].
    apply NoDup_cons. split; [|apply IH].
    rewrite seed_spec, elem_of_cons. tauto.
Qed.

Lemma reconcile_keys inputs rs :
  key <$> reconcile inputs rs = in_key <$> seed [] inputs.
Proof. unfold reconcile. rewrite <- list_fmap_compose. done. Qed.

Lemma select_keys c outcomes :
  keys (select c outcomes)
  = key <$> filter (λ o, categorise o = Some c) outcomes.
Proof. unfold keys, select. rewrite <- list_fmap_compose. done. Qed.

(** Among outcomes with distinct keys the key determines the outcome. *)
Lemma key_determines (outcomes : list ReconciliationOutcome) o1 o2 :
  NoDup (key <$> outcomes) →
  o1 ∈ outcomes → o2 ∈ outcomes → key o1 = key o2 → o1 = o2.
Proof.
  induction outcomes as [|o rest IH]; simpl; intros Hnd H1 H2 Hk.
  - by apply elem_of_nil in H1.
  - apply NoDup_cons in Hnd as [Hfresh Hnd].
    apply elem_of_cons in H1 as [->|H1], H2 as [->|H2]; auto.
    + exfalso. apply Hfresh. rewrite Hk. by apply list_elem_of_fmap_2.
    + exfalso. apply Hfresh. rewrite <- Hk. by apply list_elem_of_fmap_2.
Qed.

Lemma select_member c outcomes k :
  k ∈ keys (select c outcomes)
  ↔ ∃ o, o ∈ outcomes ∧ key o = k ∧ categorise o = Some c.
Proof.
  rewrite select_keys, list_elem_of_fmap. split.
  - intros (o & -> & Ho). apply list_elem_of_filter in Ho as [? ?]. eauto.
  - intros (o & Ho & <- & Hc). exists o. split; [done|].
    by apply list_elem_of_filter.
Qed.

(** What the three rules, taken in order, decide. *)
Lemma categorise_cases o :
  categorise o
  = match results o with
    | None => Some scouted
    | Some r =>
        if contact_milestone r then Some contacted
        else if retrieval_milestone r then Some retrieved
        else None
    end.
Proof.
  unfold Transformer.categorise, rules; simpl.
  destruct (results o) as [r|]; [|done].
  by destruct (retrieval_milestone r), (contact_milestone r).
Qed.

Lemma categorise_none o : categorise o = None ↔ violates o = true.
Proof.
  rewrite categorise_cases. unfold Transformer.violates.
  destruct (results o) as [r|]; [|done].
  by destruct (retrieval_milestone r), (contact_milestone r).
Qed.

Lemma dropped_member outcomes k :
  k ∈ dropped outcomes ↔ ∃ o, o ∈ outcomes ∧ key o = k ∧ violates o = true.
Proof.
  unfold dropped. rewrite list_elem_of_fmap. split.
  - intros (o & -> & Ho). apply list_elem_of_filter in Ho as [? ?]. eauto.
  - intros (o & Ho & <- & Hc). exists o. split; [done|].
    by apply list_elem_of_filter.
Qed.

Lemma select_NoDup c outcomes :
  NoDup (key <$> outcomes) → NoDup (keys (select c outcomes)).
Proof.
  intros Hnd. rewrite select_keys. eapply sublist_NoDup; [exact Hnd|].
  apply fmap_sublist, sublist_filter.
Qed.

Lemma select_disjoint c1 c2 outcomes k :
  NoDup (key <$> outcomes) → c1 ≠ c2 →
  k ∈ keys (select c1 outcomes) → k ∉ keys (select c2 outcomes).
Proof.
  intros Hnd Hne (o1 & Ho1 & Hk1 & Hc1)%select_member
    (o2 & Ho2 & Hk2 & Hc2)%select_member.
  assert (o1 = o2) by (eapply key_determines; eauto; congruence).
  congruence.
Qed.

(** The partition of any family of outcomes with distinct keys. *)
Lemma classify_distinct outcomes :
  NoDup (key <$> outcomes) →
  let b := classify outcomes in
  let S := key_set (keys (bundle_scouted b)) in
  let R := key_set (keys (bundle_retrieved b)) in
  let C := key_set (keys (bundle_contacted b)) in
  S ## R ∧ S ## C ∧ R ## C
  ∧ S ∪ R ∪ C = key_set (key <$> outcomes) ∖ key_set (dropped outcomes)
  ∧ NoDup (keys (bundle_scouted b) ++ keys (bundle_retrieved b)
           ++ keys (bundle_contacted b)).
Proof.
  intros Hnd; simpl. unfold key_set.
  assert (Hd : ∀ c1 c2 k, c1 ≠ c2 →
            k ∈ keys (select c1 outcomes) → k ∉ keys (select c2 outcomes))
    by (intros; by eapply select_disjoint).
  repeat split.
  - intros k. rewrite !elem_of_list_to_set. by apply Hd.
  - intros k. rewrite !elem_of_list_to_set. by apply Hd.
  - intros k. rewrite !elem_of_list_to_set. by apply Hd.
  - apply set_eq. intros k.
    rewrite !elem_of_union, elem_of_difference, !elem_of_list_to_set.
    rewrite !select_member, dropped_member, list_elem_of_fmap. split.
    + intros [[(o&Ho&Hk&Hc)|(o&Ho&Hk&Hc)]|(o&Ho&Hk&Hc)];
        (split; [by exists o|]);
        intros (o'&Ho'&Hk'&Hc'%categorise_none);
        (assert (o = o') by (eapply key_determines; eauto; congruence));
        congruence.
    + intros [(o & -> & Ho) Hnot].
      destruct (categorise o) as [[]|] eqn:Hc.
      * left; left; by exists o.
      * left; right; by exists o.
      * right; by exists o.
      * exfalso. apply Hnot. exists o. by rewrite <- categorise_none.
  - apply NoDup_app. split; [by apply select_NoDup|]. split.
    + intros k Hk [?|?]%elem_of_app; by eapply Hd in Hk.
    + apply NoDup_app. split; [by apply select_NoDup|].
      split; [|by apply select_NoDup].
      intros k Hk ?; by eapply Hd in Hk.
Qed.

Lemma reconcile_elem inputs rs o :
  o ∈ reconcile inputs rs →
  key o ∈ in_key <$> inputs ∧ results o = lookup_result (key o) rs.
Proof.
  unfold reconcile. intros (i & -> & Hi)%list_elem_of_fmap; simpl.
  split; [|done].
  assert (in_key i ∈ in_key <$> seed [] inputs) as Hk
    by (by apply list_elem_of_fmap_2).
  by apply seed_spec in Hk as [? _].
Qed.

Lemma reconcile_has inputs rs k :
  k ∈ in_key <$> inputs → ∃ o, o ∈ reconcile inputs rs ∧ key o = k.
Proof.
  intros Hk.
  assert (k ∈ key <$> reconcile inputs rs) as Ho.
  { rewrite reconcile_keys, seed_spec, elem_of_nil. tauto. }
  apply list_elem_of_fmap in Ho as (o & -> & Ho). by exists o.
Qed.

(** An outcome of the reconciliation with key [k] whose Results side
    satisfies [P]: [k] is an Input key and its lookup satisfies [P]. *)
Lemma reconcile_outcome inputs rs k (P : option ResultRecord → Prop) :
  (∃ o, o ∈ reconcile inputs rs ∧ key o = k ∧ P (results o))
  ↔ k ∈ in_key <$> inputs ∧ P (lookup_result k rs).
Proof.
  split.
  - intros (o & Ho & <- & HP).
    destruct (reconcile_elem _ _ _ Ho) as [? <-]. done.
  - intros [Hk HP]. destruct (reconcile_has inputs rs k Hk) as (o & Ho & <-).
    exists o. destruct (reconcile_elem _ _ _ Ho) as [_ ->]. done.
Qed.

Lemma occurs_once (l : list string) k :
  NoDup l → k ∈ l → length (filter (λ k', k' = k) l) = 1.
Proof.
  induction 1 as [|x l Hx Hnd IH]; [by intros ?%elem_of_nil|].
  rewrite filter_cons. intros [->|Hin]%elem_of_cons.
  - rewrite decide_True by done; simpl. f_equal.
    destruct (filter (λ k', k' = x) l) as [|y ?] eqn:Hf; [done|].
    assert (y ∈ filter (λ k', k' = x) l) as [-> ?]%list_elem_of_filter
      by (rewrite Hf; left).
    done.
  - rewrite decide_False by (by intros ->). by apply IH.
Qed.

(** C2.  For every bundle the classifier produces from reconciled
    outcomes: the key sets of the scouted, retrieved and contacted sequences
    are pairwise disjoint; their union is the set of Input keys without the
    dropped keys; a key is scouted exactly when it is an Input key without a
    Results record, retrieved exactly when its Results record signals a
    retrieval and no contact milestone, contacted exactly when its Results
    record signals a contact milestone, and dropped exactly when its Results
    record signals neither; and every Input key that is not dropped occurs
    exactly once in the three sequences taken together. *)
Theorem classify_partition inputs rs :
  let outcomes := reconcile inputs rs in
  let b := classify outcomes in
  let S := key_set (keys (bundle_scouted b)) in
  let R := key_set (keys (bundle_retrieved b)) in
  let C := key_set (keys (bundle_contacted b)) in
  S ## R ∧ S ## C ∧ R ## C
  ∧ S ∪ R ∪ C = key_set (in_key <$> inputs) ∖ key_set (dropped outcomes)
  ∧ NoDup (keys (bundle_scouted b) ++ keys (bundle_retrieved b)
           ++ keys (bundle_contacted b))
  ∧ (∀ k, k ∈ keys (bundle_scouted b)
          ↔ k ∈ in_key <$> inputs ∧ lookup_result k rs = None)
  ∧ (∀ k, k ∈ keys (bundle_retrieved b)
          ↔ k ∈ in_key <$> inputs
            ∧ ∃ r, lookup_result k rs = Some r
                   ∧ retrieval_milestone r = true
                   ∧ contact_milestone r = false)
  ∧ (∀ k, k ∈ keys (bundle_contacted b)
          ↔ k ∈ in_key <$> inputs
            ∧ ∃ r, lookup_result k rs = Some r ∧ contact_milestone r = true)
  ∧ (∀ k, k ∈ dropped outcomes
          ↔ k ∈ in_key <$> inputs
            ∧ ∃ r, lookup_result k rs = Some r
                   ∧ retrieval_milestone r = false
                   ∧ contact_milestone r = false)
  ∧ (∀ k, k ∈ in_key <$> inputs → k ∉ dropped outcomes →
          length (filter (λ k', k' = k)
                    (keys (bundle_scouted b) ++ keys (bundle_retrieved b)
                     ++ keys (bundle_contacted b))) = 1).
Proof.
  intros outcomes.
  assert (Hnd : NoDup (key <$> outcomes))
    by (unfold outcomes; rewrite reconcile_keys; apply seed_NoDup).
  destruct (classify_distinct outcomes Hnd) as (H1 & H2 & H3 & H4 & H5).
  assert (Hunion : key_set (keys (select scouted outcomes))
                   ∪ key_set (keys (select retrieved outcomes))
                   ∪ key_set (keys (select contacted outcomes))
                   = key_set (in_key <$> inputs) ∖ key_set (dropped outcomes)).
  { etrans; [exact H4|]. f_equal.
    apply set_eq. intros k. unfold key_set, outcomes.
    rewrite !elem_of_list_to_set, reconcile_keys, seed_spec, elem_of_nil.
    tauto. }
  simpl. split; [done|]. split; [done|]. split; [done|].
  split; [done|]. split; [done|].
  split; [|split; [|split; [|split]]].
  - intros k. rewrite select_member.
    rewrite <- (reconcile_outcome inputs rs k (λ x, x = None)).
    split; intros (o & Ho & Hk & Hc); exists o; (split; [done|]);
      (split; [done|]); rewrite categorise_cases in *;
      destruct (results o) as [r|]; try done.
    by destruct (contact_milestone r), (retrieval_milestone r).
  - intros k. rewrite select_member.
    rewrite <- (reconcile_outcome inputs rs k
                  (λ x, ∃ r, x = Some r ∧ retrieval_milestone r = true
                             ∧ contact_milestone r = false)).
    split; intros (o & Ho & Hk & Hc); exists o; (split; [done|]);
      (split; [done|]); rewrite categorise_cases in *.
    + destruct (results o) as [r|]; [|done]. exists r.
      by destruct (contact_milestone r), (retrieval_milestone r).
    + destruct Hc as (r & -> & -> & ->). done.
  - intros k. rewrite select_member.
    rewrite <- (reconcile_outcome inputs rs k
                  (λ x, ∃ r, x = Some r ∧ contact_milestone r = true)).
    split; intros (o & Ho & Hk & Hc); exists o; (split; [done|]);
      (split; [done|]); rewrite categorise_cases in *.
    + destruct (results o) as [r|]; [|done]. exists r.
      by destruct (contact_milestone r), (retrieval_milestone r).
    + destruct Hc as (r & -> & ->). done.
  - intros k. rewrite dropped_member.
    rewrite <- (reconcile_outcome inputs rs k
                  (λ x, ∃ r, x = Some r ∧ retrieval_milestone r = false
                             ∧ contact_milestone r = false)).
    unfold Transformer.violates.
    split; intros (o & Ho & Hk & Hc); exists o; (split; [done|]);
      (split; [done|]).
    + destruct (results o) as [r|]; [|done]. exists r.
      by destruct (contact_milestone r), (retrieval_milestone r).
    + destruct Hc as (r & -> & -> & ->). done.
  - intros k Hk Hnot. apply occurs_once; [done|].
    assert (k ∈ key_set (in_key <$> inputs) ∖ key_set (dropped outcomes))
      as Hin.
    { apply elem_of_difference. unfold key_set.
      by rewrite !elem_of_list_to_set. }
    rewrite <- Hunion in Hin. unfold key_set in Hin.
    rewrite !elem_of_union, !elem_of_list_to_set in Hin.
    rewrite !elem_of_app. tauto.
Qed.

End Partition.

Lemma classify_partition_witness :
  let contact r := bool_decide (res_fields r = [("status", "contacted")]) in
  let retrieval r := bool_decide (res_fields r = [("status", "retrieved")]) in
  let b := classify retrieval contact
             (reconcile
                [ {| in_key := "A1"; in_fields := [("area", "10")] |};
                  {| in_key := "A2"; in_fields := [("area", "5")] |} ]
                [ {| res_key := "A1";
                     res_fields := [("status", "contacted")] |} ]) in
  length (filter (λ k', k' = "A2")
            (keys (bundle_scouted b) ++ keys (bundle_retrieved b)
             ++ keys (bundle_contacted b))) = 1.
Proof.
  intros contact retrieval b.
  refine (proj2 (proj2 (proj2 (proj2 (proj2 (proj2 (proj2 (proj2 (proj2
            (classify_partition retrieval contact
               [ {| in_key := "A1"; in_fields := [("area", "10")] |};
                 {| in_key := "A2"; in_fields := [("area", "5")] |} ]
               [ {| res_key := "A1";
                    res_fields := [("status", "contacted")] |} ])))))))))
            "A2" _ _).
  - vm_compute. set_solver.
  - vm_compute. set_solver.
Defined.

(** The example of the spec: Input [A1], [A2]; Results [A1] contacted. *)
Example classify_scenario :
  let contact r := bool_decide (res_fields r = [("status", "contacted")]) in
  let retrieval r := bool_decide (res_fields r = [("status", "retrieved")]) in
  let b := classify retrieval contact
             (reconcile
                [ {| in_key := "A1"; in_fields := [("area", "10")] |};
                  {| in_key := "A2"; in_fields := [("area", "5")] |} ]
                [ {| res_key := "A1";
                     res_fields := [("status", "contacted")] |} ]) in
  keys (bundle_contacted b) = ["A1"]
  ∧ keys (bundle_scouted b) = ["A2"]
  ∧ keys (bundle_retrieved b) = [].
Proof. vm_compute. done. Qed.

End TransformerFacts.

(** ** The orchestrator *)

Module AppFacts.
Import App.

(** *** What each handler writes *)

Lemma get_set {A} (t : FileType) (v : A) m : get t (set t v m) = v.
Proof. by destruct t. Qed.

Lemma get_set_ne {A} (t t' : FileType) (v : A) m :
  t' ≠ t → get t (set t' v m) = get t m.
Proof. by destruct t, t'. Qed.

(** The loop over the validation errors only appends to the log. *)
Lemma addLog_each_eq clock i errs s :
  addLog_each clock i errs s
  = setLogs (λ prev, prev ++ imap (λ j err, {| message := err; type := error;
                                               timestamp := clock (i + j) |})
                               errs) s.
Proof.
  revert i s. induction errs as [|err rest IH]; intros i s; simpl.
  - destruct s; unfold setLogs; simpl. by rewrite app_nil_r.
  - rewrite IH. unfold addLog, setLogs; simpl. f_equal.
    rewrite <- app_assoc; simpl. rewrite Nat.add_0_r. do 2 f_equal.
    apply imap_ext. intros j err' _; simpl. do 2 f_equal. lia.
Qed.

Lemma addLog_each_logs clock errs s :
  logs (addLog_each clock 0 errs s) = logs s ++ error_entries clock errs.
Proof. by rewrite addLog_each_eq. Qed.

(** Settling an ingestion writes its own slot and the log, nothing else. *)
Lemma settle_writes clock file t r s :
  let s' := handleFileChange_settle clock file t r s in
  files s' = files s
  ∧ isProcessing s' = isProcessing s
  ∧ outputData s' = outputData s
  ∧ resetKey s' = resetKey s
  ∧ get t (fileStatus s') = verdict r
  ∧ logs s `prefix_of` logs s'
  ∧ ∀ t', t' ≠ t →
      get t' (fileStatus s') = get t' (fileStatus s)
      ∧ get t' (fileErrors s') = get t' (fileErrors s)
      ∧ get t' (fileDataCache s') = get t' (fileDataCache s).
Proof.
  unfold handleFileChange_settle.
  destruct r as [[jsonData validation]|msg]; simpl;
    [destruct (isValid validation); [|rewrite addLog_each_eq]|]; simpl;
    rewrite ?get_set;
    (repeat split; try done; try (by apply prefix_app_r);
     try (by eexists); by apply get_set_ne).
Qed.

Lemma begin_writes file t s :
  let s' := handleFileChange_begin file t s in
  isProcessing s' = isProcessing s
  ∧ outputData s' = None
  ∧ logs s' = logs s
  ∧ fileDataCache s' = fileDataCache s
  ∧ get t (fileStatus s') = loading
  ∧ ∀ t', t' ≠ t →
      get t' (fileStatus s') = get t' (fileStatus s)
      ∧ get t' (fileErrors s') = get t' (fileErrors s)
      ∧ get t' (files s') = get t' (files s).
Proof.
  unfold handleFileChange_begin; simpl. rewrite get_set.
  repeat split; try done; by apply get_set_ne.
Qed.

Lemma run_settle_writes clock r s :
  let s' := handleRunTransformation_settle clock r s in
  isProcessing s' = false
  ∧ fileStatus s' = fileStatus s
  ∧ fileDataCache s' = fileDataCache s
  ∧ logs s `prefix_of` logs s'
  ∧ outputData s' = match r with
                    | Returned (Some output) => Some output
                    | _ => outputData s
                    end.
Proof.
  unfold handleRunTransformation_settle.
  destruct r as [[output|]|msg]; simpl; repeat split; by apply prefix_app_r.
Qed.

Lemma download_writes key fileName clock x s :
  let s' := (handleDownload key fileName clock x s).1 in
  files s' = files s ∧ fileStatus s' = fileStatus s
  ∧ fileErrors s' = fileErrors s ∧ isProcessing s' = isProcessing s
  ∧ outputData s' = outputData s ∧ resetKey s' = resetKey s
  ∧ fileDataCache s' = fileDataCache s
  ∧ logs s `prefix_of` logs s'.
Proof.
  unfold handleDownload.
  destruct (outputData s) as [o|] eqn:Ho; simpl;
    [case_bool_decide; [|destruct x]|]; simpl; rewrite ?Ho;
    repeat split; try done;
    rewrite <- ?app_assoc; by apply prefix_app_r.
Qed.

(** *** Reset, ingestion and download, handler by handler *)

(** C5.  After [handleReset], from any state, both slots are [waiting],
    both cached record sets are cleared and the output bundle is
    discarded. *)
Theorem reset_clears_pipeline (s : State) :
  let s' := handleReset s in
  of_input (fileStatus s') = waiting
  ∧ of_results (fileStatus s') = waiting
  ∧ of_input (fileDataCache s') = None
  ∧ of_results (fileDataCache s') = None
  ∧ outputData s' = None.
Proof. by repeat split. Qed.

(** C7.  Both halves of [handleFileChange] on one slot, whatever the
    ingestion settles with, leave the status, the error message, the
    selected file and the cached records of the other slot as they were;
    and selecting a file is offered in every configuration, so the other
    slot can always be tried again. *)
Theorem ingestion_leaves_other_slot
    (clock : Clock) (file : File) (t : FileType) (r : Settled Ingested)
    (s : State) :
  (let s' := handleFileChange_begin file t s in
   get (other t) (fileStatus s') = get (other t) (fileStatus s)
   ∧ get (other t) (fileErrors s') = get (other t) (fileErrors s)
   ∧ get (other t) (files s') = get (other t) (files s)
   ∧ get (other t) (fileDataCache s') = get (other t) (fileDataCache s))
  ∧ (let s' := handleFileChange_settle clock file t r s in
     get (other t) (fileStatus s') = get (other t) (fileStatus s)
     ∧ get (other t) (fileErrors s') = get (other t) (fileErrors s)
     ∧ get (other t) (files s') = get (other t) (files s)
     ∧ get (other t) (fileDataCache s') = get (other t) (fileDataCache s))
  ∧ ∀ c file', is_Some (step (select_file (other t) file') c).
Proof.
  assert (Hne : other t ≠ t) by (by destruct t).
  cbv zeta. split; [|split].
  - destruct (begin_writes file t s) as (_ & _ & _ & Hc & _ & Hf).
    destruct (Hf _ Hne) as (? & ? & ?). rewrite Hc. done.
  - destruct (settle_writes clock file t r s)
      as (Hfiles & _ & _ & _ & _ & _ & Hf).
    destruct (Hf _ Hne) as (? & ? & ?). rewrite Hfiles. done.
  - intros c file'. by eexists.
Qed.

(** C10.  When there is no output bundle, or the requested category is
    empty, [handleDownload] makes no external call (neither the encoder nor
    [saveAs]) and appends exactly one [error] entry to the log; every other
    part of the state is unchanged. *)
Theorem download_without_data
    (key : OutputKey) (fileName : string) (clock : Clock) (x : Exporting)
    (s : State) :
  (outputData s = None
   ∨ ∃ o, outputData s = Some o ∧ category key o = []) →
  handleDownload key fileName clock x s
  = ({| files := files s; fileStatus := fileStatus s;
        fileErrors := fileErrors s;
        logs := logs s
                ++ [ {| message := "No data available to download for "
                                   +:+ fileName +:+ ".";
                        type := error;
                        timestamp := clock 0 |} ];
        isProcessing := isProcessing s; outputData := outputData s;
        resetKey := resetKey s; fileDataCache := fileDataCache s |},
     []).
Proof.
  unfold handleDownload, addLog, setLogs; simpl.
  intros [Hnone|(o & Ho & Hempty)].
  - by rewrite Hnone.
  - rewrite Ho, Hempty; simpl. done.
Qed.

Lemma download_without_data_witness :
  handleDownload key_scouted "1_Scouted_Lands.xlsx" tick all_return
    (app (after (load_both ++ good_run)))
  = ({| files := files (app (after (load_both ++ good_run)));
        fileStatus := fileStatus (app (after (load_both ++ good_run)));
        fileErrors := fileErrors (app (after (load_both ++ good_run)));
        logs := logs (app (after (load_both ++ good_run)))
                ++ [ {| message := "No data available to download for "
                                   +:+ "1_Scouted_Lands.xlsx" +:+ ".";
                        type := error;
                        timestamp := tick 0 |} ];
        isProcessing := isProcessing (app (after (load_both ++ good_run)));
        outputData := outputData (app (after (load_both ++ good_run)));
        resetKey := resetKey (app (after (load_both ++ good_run)));
        fileDataCache := fileDataCache (app (after (load_both ++ good_run))) |},
     []).
Proof.
  apply (download_without_data key_scouted "1_Scouted_Lands.xlsx" tick
           all_return (app (after (load_both ++ good_run)))).
  right. exists bundle. split; reflexivity.
Defined.

(** *** Invariants of the event loop *)

Lemma exec_invariant (P : Config → Prop) :
  (∀ e c c', P c → step e c = Some c' → P c') →
  ∀ tr c c', P c → exec tr c = Some c' → P c'.
Proof.
  intros Hstep. induction tr as [|e tr IH]; intros c c' HP Hexec; simpl in *.
  - by injection Hexec as <-.
  - destruct (step e c) as [c1|] eqn:He; [|done]. eauto.
Qed.

(** Inversion of a step, event by event. *)
Ltac step_inv H :=
  unfold step in H;
  repeat match type of H with
  | None = Some _ => discriminate H
  | Some _ = Some _ => injection H as <-
  | context [match ?x !! ?i with _ => _ end] =>
      let E := fresh "Hlook" in destruct (x !! i) as [[]|] eqn:E
  | context [if ?b then _ else _] =>
      let E := fresh "Hif" in destruct b eqn:E
  | context [let (_, _) := ?p in _] =>
      let E := fresh "Hpair" in destruct p eqn:E
  end.

Lemma step_one_run e c c' : one_run c → step e c = Some c' → one_run c'.
Proof.
  unfold one_run. intros Hinv Hstep.
  destruct e as [t file|i r clock|clock|j|j r clock|msg ty now|key x clock|];
    step_inv Hstep; cbn [app running ingesting].
  - (* select_file *)
    destruct (begin_writes file t (app c)) as (-> & -> & _).
    destruct (running c) as [|? [|]]; intuition congruence.
  - (* ingest_settles *)
    match goal with |- context [handleFileChange_settle _ ?f ?t _ _] =>
      destruct (settle_writes clock f t r (app c)) as (_ & -> & -> & _)
    end.
    done.
  - (* click_run *)
    unfold run_enabled in Hif.
    apply negb_true_iff, orb_false_iff in Hif as [_ Hidle].
    unfold handleRunTransformation_begin in Hpair.
    destruct (cache_missing (app c)); injection Hpair as <- <-; simpl.
    + done.
    + rewrite Hidle in Hinv.
      destruct (running c) as [|? [|]]; simpl; [done|by destruct Hinv|done].
  - (* timer_fires *)
    unfold handleRunTransformation_call in Hpair. injection Hpair as <- <-.
    destruct (running c) as [|? [|]]; try done.
    destruct j; simpl in *; [done|discriminate].
  - (* process_settles *)
    destruct (run_settle_writes clock r (app c)) as (-> & _).
    destruct (running c) as [|? [|]]; try done.
    destruct j; simpl in *; [done|discriminate].
  - (* sink_log *) done.
  - (* click_download *)
    destruct (download_writes key (download_name key) clock x (app c))
      as (_ & _ & _ & -> & -> & _).
    done.
  - (* click_reset *)
    destruct (running c) as [|? [|]]; intuition congruence.
Qed.

Lemma reachable_one_run tr c : exec tr start = Some c → one_run c.
Proof. apply (exec_invariant one_run); [apply step_one_run|done]. Qed.


Lemma run_begin_writes clock s :
  let (s', started) := handleRunTransformation_begin clock s in
  fileStatus s' = fileStatus s
  ∧ fileDataCache s' = fileDataCache s
  ∧ (started = false →
     logs s `prefix_of` logs s' ∧ outputData s' = outputData s
     ∧ cache_missing s = true)
  ∧ (started = true →
     outputData s' = None ∧ isProcessing s' = true ∧ both_cached s).
Proof.
  unfold handleRunTransformation_begin, both_cached, cache_missing.
  destruct (bool_decide (is_Some (of_input (fileDataCache s)))) eqn:Hi;
    destruct (bool_decide (is_Some (of_results (fileDataCache s)))) eqn:Hr;
    simpl; (split; [done|]); (split; [done|]);
    (split; [intros ?|intros ?]); try done;
    try (split; [by apply prefix_app_r|done]).
  apply bool_decide_eq_true in Hi, Hr. done.
Qed.

Lemma run_enabled_spec s :
  run_enabled s = true ↔ both_valid s ∧ isProcessing s = false.
Proof.
  unfold run_enabled, canRun, both_valid.
  rewrite negb_true_iff, orb_false_iff, negb_false_iff, andb_true_iff.
  by rewrite !bool_decide_eq_true.
Qed.

(** *** Runs *)

(** C1, as amended.  A run that gets past the guard sets [outputData] to
    null when it starts, and when its processing call throws or yields no
    output, [outputData] is null after the run: no partial bundle is
    exposed, and the bundle held before the run is discarded. *)
Theorem failed_run_leaves_no_bundle (tr : list Event) (c : Config) :
  exec tr start = Some c →
  (∀ clock c', step (click_run clock) c = Some c' →
     running c' ≠ running c → outputData (app c') = None)
  ∧ (∀ j r clock c', fails r = true →
       step (process_settles j r clock) c = Some c' →
       outputData (app c') = None).
Proof.
  intros Hreach. apply reachable_one_run in Hreach. split.
  - intros clock c' Hstep Hnew. step_inv Hstep; cbn [app running] in *.
    pose proof (run_begin_writes clock (app c)) as Hw. rewrite Hpair in Hw.
    destruct b; [by apply Hw|done].
  - intros j r clock c' Hfail Hstep. step_inv Hstep; cbn [app].
    destruct (run_settle_writes clock r (app c)) as (_ & _ & _ & _ & ->).
    unfold one_run in Hreach.
    destruct (running c) as [|? [|]]; [done| |done].
    destruct Hreach as [_ ->]. by destruct r as [[]|].
Qed.

Lemma failed_run_leaves_no_bundle_witness :
  outputData (app (after (load_both ++ good_run ++ [click_run tick]))) = None
  ∧ outputData (app (after (load_both ++ good_run ++ bad_run))) = None.
Proof.
  assert (H1 : exec (load_both ++ good_run) start
               = Some (after (load_both ++ good_run)))
    by (vm_compute; reflexivity).
  assert (H2 : exec (load_both ++ good_run ++ [click_run tick; timer_fires 0])
                 start
               = Some (after (load_both ++ good_run
                              ++ [click_run tick; timer_fires 0])))
    by (vm_compute; reflexivity).
  split.
  - refine (proj1 (failed_run_leaves_no_bundle _ _ H1) tick _ _ _).
    + vm_compute; reflexivity.
    + vm_compute; discriminate.
  - refine (proj2 (failed_run_leaves_no_bundle _ _ H2) 0
              (Threw "empty input") tick _ _ _).
    + reflexivity.
    + vm_compute; reflexivity.
Defined.

(** C1, as stated, fails: a bundle is on display, a run is started and its
    processing call throws; the bundle is gone afterwards. *)
Lemma failed_run_discards_previous_bundle :
  outputData ∘ app <$> exec (load_both ++ good_run) start = Some (Some bundle)
  ∧ outputData ∘ app <$> exec (load_both ++ good_run ++ bad_run) start
    = Some None.
Proof. split; vm_compute; reflexivity. Qed.

Lemma exec_app_Some tr1 tr2 c c' :
  exec (tr1 ++ tr2) c = Some c' →
  ∃ c1, exec tr1 c = Some c1 ∧ exec tr2 c1 = Some c'.
Proof.
  revert c. induction tr1 as [|e tr1 IH]; intros c; simpl.
  - intros H. by exists c.
  - destruct (step e c) as [c1|]; [apply IH|done].
Qed.

(** A run waiting for its timer over a valid, cached pair of datasets. *)
Lemma idle_keeps_waiting_run e c c' :
  idle e = true → step e c = Some c' →
  running c' = running c
  ∧ fileStatus (app c') = fileStatus (app c)
  ∧ fileDataCache (app c') = fileDataCache (app c).
Proof.
  intros Hidle Hstep.
  destruct e as [t file|i r clock|clock|j|j r clock|msg ty now|key x clock|];
    simpl in Hidle; try discriminate Hidle;
    step_inv Hstep; cbn [app running]; [done|].
  by destruct (download_writes key (download_name key) clock x (app c))
    as (_ & -> & _ & _ & _ & _ & -> & _).
Qed.

Lemma exec_idle_keeps_waiting_run mid c c' :
  Forall (λ e, idle e = true) mid → exec mid c = Some c' →
  running c' = running c
  ∧ fileStatus (app c') = fileStatus (app c)
  ∧ fileDataCache (app c') = fileDataCache (app c).
Proof.
  intros Hidle. revert c.
  induction Hidle as [|e mid He _ IH]; intros c Hexec; simpl in Hexec.
  - by injection Hexec as <-.
  - destruct (step e c) as [c1|] eqn:Hstep; [|done].
    destruct (idle_keeps_waiting_run e c c1 He Hstep) as (<- & <- & <-).
    by apply IH.
Qed.

(** C3, as amended.  A run is started only by a click on the run button,
    which is delivered only when both slots are [valid], and the handler
    goes on only when both record sets are cached.  The processing call is
    made when the 100 ms timer fires, without a further check: both slots
    are [valid] and both record sets are passed to it when nothing but log
    entries and downloads comes between the click and the timer. *)
Theorem run_gated_at_the_click (tr : list Event) (c : Config) :
  exec tr start = Some c →
  (¬ both_valid (app c) → ∀ clock, step (click_run clock) c = None)
  ∧ (∀ clock c', step (click_run clock) c = Some c' →
       running c' ≠ running c →
       both_valid (app c) ∧ both_cached (app c)
       ∧ running c' = [awaiting_timer])
  ∧ (∀ clock mid j c',
       Forall (λ e, idle e = true) mid →
       exec (click_run clock :: mid ++ [timer_fires j]) c = Some c' →
       both_valid (app c')
       ∧ ∃ i r, running c' = [awaiting_process (Some i) (Some r)]).
Proof.
  intros Hreach.
  pose proof (reachable_one_run _ _ Hreach) as Hone. unfold one_run in Hone.
  assert (Hclick : ∀ clock c',
            step (click_run clock) c = Some c' →
            both_valid (app c) ∧ running c = []
            ∧ fileStatus (app c') = fileStatus (app c)
            ∧ fileDataCache (app c') = fileDataCache (app c)
            ∧ (running c' = [] ∨
               (running c' = [awaiting_timer] ∧ both_cached (app c)))).
  { intros clock c' Hstep. step_inv Hstep; cbn [app running].
    apply run_enabled_spec in Hif as [Hvalid Hidle].
    assert (running c = []) as Hnone.
    { destruct (running c) as [|? [|]]; [done| |done].
      destruct Hone; congruence. }
    pose proof (run_begin_writes clock (app c)) as Hw. rewrite Hpair in Hw.
    destruct Hw as (Hs & Hc & _ & Hstarted). rewrite Hnone.
    split; [done|]. split; [done|]. split; [done|]. split; [done|].
    destruct b; [right|by left]. split; [done|]. by apply Hstarted. }
  split; [|split].
  - intros Hnot clock. unfold step.
    destruct (run_enabled (app c)) eqn:Hen; [|done].
    apply run_enabled_spec in Hen as [? _]. done.
  - intros clock c' Hstep Hnew.
    destruct (Hclick clock c' Hstep) as (Hv & Hnone & _ & _ & Hrun).
    rewrite Hnone in Hnew. destruct Hrun as [?|[? ?]]; [done|].
    split; [done|]. by split.
  - intros clock mid j c' Hidle Hexec. cbn [exec] in Hexec.
    destruct (step (click_run clock) c) as [c1|] eqn:Hstep; [|done].
    destruct (Hclick clock c1 Hstep) as (Hv & _ & Hs & Hc & Hrun).
    apply exec_app_Some in Hexec as (c2 & Hmid & Htimer).
    destruct (exec_idle_keeps_waiting_run mid c1 c2 Hidle Hmid)
      as (Hr2 & Hs2 & Hc2).
    cbn [exec] in Htimer.
    destruct (step (timer_fires j) c2) as [c3|] eqn:Hfire; [|done].
    injection Htimer as <-. step_inv Hfire; cbn [app running].
    rewrite Hr2 in Hlook. destruct Hrun as [Hnone|[Hwait Hcached]].
    { by rewrite Hnone in Hlook. }
    rewrite Hwait in Hlook. destruct j; [|done].
    unfold handleRunTransformation_call in Hpair.
    injection Hpair as <- <-. rewrite Hr2, Hwait; simpl.
    unfold both_valid, both_cached in *. rewrite Hs2, Hs, Hc2, Hc.
    split; [done|]. destruct Hcached as [[i ->] [r ->]]. by exists i, r.
Qed.

Lemma run_gated_at_the_click_witness :
  step (click_run tick) (after (load_both ++ [select_file input file_c])) = None
  ∧ (both_valid (app (after load_both)) ∧ both_cached (app (after load_both))
     ∧ running (after (load_both ++ [click_run tick])) = [awaiting_timer])
  ∧ (both_valid (app (after (load_both ++ [click_run tick; timer_fires 0])))
     ∧ ∃ i r,
         running (after (load_both ++ [click_run tick; timer_fires 0]))
         = [awaiting_process (Some i) (Some r)]).
Proof.
  assert (H1 : exec (load_both ++ [select_file input file_c]) start
               = Some (after (load_both ++ [select_file input file_c])))
    by (vm_compute; reflexivity).
  assert (H2 : exec load_both start = Some (after load_both))
    by (vm_compute; reflexivity).
  split; [|split].
  - refine (proj1 (run_gated_at_the_click _ _ H1) _ tick).
    intros [Hin _]. vm_compute in Hin. discriminate Hin.
  - refine (proj1 (proj2 (run_gated_at_the_click _ _ H2)) tick
              (after (load_both ++ [click_run tick])) _ _).
    + vm_compute; reflexivity.
    + vm_compute; discriminate.
  - refine (proj2 (proj2 (run_gated_at_the_click _ _ H2)) tick [] 0
              (after (load_both ++ [click_run tick; timer_fires 0])) _ _).
    + constructor.
    + vm_compute; reflexivity.
Defined.

(** C3, as stated, fails.  With the Input slot [loading] the handler, when
    invoked, does not refuse: its guard reads the cache, which still holds
    the records of the previous file.  And a run started with both slots
    [valid] makes its processing call after the timer with the Input slot
    [invalid] and no Input records, when a file dropped in between has been
    rejected. *)
Lemma processing_call_with_invalid_slot :
  (λ c, (of_input (fileStatus (app c)),
         (handleRunTransformation_begin tick (app c)).2))
  <$> exec (load_both ++ [select_file input file_c]) start
  = Some (loading, true)
  ∧ (λ c, (of_input (fileStatus (app c)), of_input (fileDataCache (app c)),
           running c))
    <$> exec reject_during_delay start
    = Some (invalid, None, [awaiting_process None (Some rows_b)]).
Proof. split; vm_compute; reflexivity. Qed.

(** The guard inside the handler reads the cache, not the status: it is the
    disabled button that keeps the handler from running while a slot is
    being reloaded. *)
Remark handler_guard_reads_cache :
  let c := after (load_both ++ [select_file input file_c]) in
  of_input (fileStatus (app c)) = loading
  ∧ (handleRunTransformation_begin tick (app c)).2 = true
  ∧ run_enabled (app c) = false.
Proof. vm_compute. by repeat split. Qed.

(** The gate is passed at the click: the processing call itself is made
    after the 100 ms timer, and a file dropped in between has already put
    its slot back to [loading] by then; the call gets the records cached
    before. *)
Remark processing_call_follows_the_click :
  (λ c, (of_input (fileStatus (app c)), running c))
  <$> exec (load_both
            ++ [click_run tick; select_file input file_c; timer_fires 0])
        start
  = Some (loading, [awaiting_process (Some rows_a) (Some rows_b)]).
Proof. vm_compute; reflexivity. Qed.

(** C4.  In every reachable configuration at most one run is in flight, and
    while one is, [isProcessing] is true and a click on the run button is
    not delivered: no second run starts. *)
Theorem no_second_run (tr : list Event) (c : Config) :
  exec tr start = Some c →
  (length (running c) ≤ 1)%nat
  ∧ (running c ≠ [] →
     isProcessing (app c) = true
     ∧ ∀ clock, step (click_run clock) c = None).
Proof.
  intros Hreach. apply reachable_one_run in Hreach. unfold one_run in Hreach.
  destruct (running c) as [|r [|]] eqn:Hrun; [| |done]; simpl.
  - split; [lia|done].
  - split; [lia|]. intros _. destruct Hreach as [Hbusy _]. split; [done|].
    intros clock. unfold step.
    destruct (run_enabled (app c)) eqn:Hen; [|done].
    apply run_enabled_spec in Hen as [_ ?]. congruence.
Qed.

Lemma no_second_run_witness :
  (length (running (after (load_both ++ [click_run tick]))) ≤ 1)%nat
  ∧ isProcessing (app (after (load_both ++ [click_run tick]))) = true
  ∧ step (click_run tick) (after (load_both ++ [click_run tick])) = None.
Proof.
  assert (H : exec (load_both ++ [click_run tick]) start
              = Some (after (load_both ++ [click_run tick])))
    by (vm_compute; reflexivity).
  destruct (no_second_run _ _ H) as [Hlen Hbusy].
  split; [exact Hlen|].
  destruct Hbusy as [Hflag Hblocked]; [vm_compute; discriminate|].
  split; [exact Hflag|exact (Hblocked tick)].
Defined.


(** *** The status of a slot *)

Lemma filter_delete_other {A} (P : A → Prop) `{!∀ x, Decision (P x)}
    (l : list A) i x :
  l !! i = Some x → ¬ P x → filter P (delete i l) = filter P l.
Proof.
  revert i. induction l as [|y l IH]; intros [|i]; simpl; try done.
  - intros [= ->] Hn. by rewrite filter_cons_False.
  - intros Hl Hn. rewrite !filter_cons.
    destruct (decide (P y)); [f_equal|]; eauto.
Qed.

Lemma lookup_filter {A} (P : A → Prop) `{!∀ x, Decision (P x)}
    (l : list A) i x :
  l !! i = Some x → P x → x ∈ filter P l.
Proof.
  intros Hl HP. apply list_elem_of_filter. split; [done|].
  by eapply list_elem_of_lookup_2.
Qed.

Lemma filter_delete_only {A} (P : A → Prop) `{!∀ x, Decision (P x)}
    (l : list A) i x y :
  l !! i = Some x → P x → filter P l = [y] → filter P (delete i l) = [].
Proof.
  revert i. induction l as [|z l IH]; intros [|i]; simpl; try done.
  - intros [= ->] HP. rewrite filter_cons_True by done. by intros [= _ ?].
  - intros Hl HP. rewrite !filter_cons. destruct (decide (P z)).
    + intros [= _ Hnil]. pose proof (lookup_filter P l i x Hl HP) as Hin.
      rewrite Hnil in Hin. by apply elem_of_nil in Hin.
    + eauto.
Qed.

Lemma step_single_selection t file e c c' :
  interferes t e = false →
  single_selection t file c → step e c = Some c' →
  single_selection t file c'.
Proof.
  unfold single_selection, pending_on. intros Hquiet Hinv Hstep.
  destruct e as [t' file'|i r clock|clock|j|j r clock|msg ty now|key x clock|];
    simpl in Hquiet; try discriminate Hquiet;
    step_inv Hstep; cbn [app running ingesting].
  - (* select_file on the other slot *)
    apply bool_decide_eq_false in Hquiet.
    destruct (begin_writes file' t' (app c)) as (_ & _ & _ & _ & _ & Hf).
    destruct (Hf t) as (-> & _); [done|].
    rewrite filter_app, filter_cons_False, filter_nil, app_nil_r by done.
    done.
  - (* ingest_settles *)
    match goal with
    | Hl : ingesting c !! i = Some (?t0, ?f0) |- _ =>
        destruct (settle_writes clock f0 t0 r (app c))
          as (_ & _ & _ & _ & _ & _ & Hf);
        destruct (decide (t0 = t)) as [->|Hne];
        [ left; destruct Hinv as [Hnil|[Hone _]];
          [ pose proof (lookup_filter (λ p, p.1 = t) _ _ _ Hl eq_refl) as Hin;
            rewrite Hnil in Hin; by apply elem_of_nil in Hin
          | by eapply (filter_delete_only (λ p, p.1 = t)) ]
        | destruct (Hf t) as (-> & _); [done|];
          by rewrite (filter_delete_other (λ p, p.1 = t) _ _ _ Hl) ]
    end.
  - (* click_run *)
    pose proof (run_begin_writes clock (app c)) as Hw. rewrite Hpair in Hw.
    destruct Hw as (-> & _). done.
  - (* timer_fires *) done.
  - (* process_settles *)
    destruct (run_settle_writes clock r (app c)) as (_ & -> & _). done.
  - (* sink_log *) done.
  - (* click_download *)
    destruct (download_writes key (download_name key) clock x (app c))
      as (_ & -> & _).
    done.
Qed.

Lemma exec_single_selection t file tr c c' :
  Forall (λ e, interferes t e = false) tr →
  single_selection t file c → exec tr c = Some c' →
  single_selection t file c'.
Proof.
  intros Hquiet. revert c.
  induction Hquiet as [|e tr He _ IH]; intros c Hinv Hexec; simpl in Hexec.
  - by injection Hexec as <-.
  - destruct (step e c) as [c1|] eqn:Hstep; [|done].
    eauto using step_single_selection.
Qed.

(** C6, as amended.  A file selection sets the status of its slot to
    [loading]; when its validation settles the status becomes [valid] or
    [invalid] according to the outcome.  When no other selection of the slot
    is in flight as the file is selected, and neither another selection of
    the slot nor a reset comes before it settles, the slot is still
    [loading] at that moment: it reaches [valid] or [invalid] from
    [loading]. *)
Theorem selection_passes_through_loading (t : FileType) (file : File) :
  (∀ s, get t (fileStatus (handleFileChange_begin file t s)) = loading)
  ∧ (∀ clock r s,
       get t (fileStatus (handleFileChange_settle clock file t r s))
       = verdict r)
  ∧ (∀ c tr c2 i file' r clock c3,
       pending_on t c = [] →
       exec (select_file t file :: tr) c = Some c2 →
       Forall (λ e, interferes t e = false) tr →
       ingesting c2 !! i = Some (t, file') →
       step (ingest_settles i r clock) c2 = Some c3 →
       file' = file
       ∧ get t (fileStatus (app c2)) = loading
       ∧ get t (fileStatus (app c3)) = verdict r).
Proof.
  split; [|split].
  - intros s. by destruct (begin_writes file t s) as (_ & _ & _ & _ & ? & _).
  - intros clock r s.
    by destruct (settle_writes clock file t r s) as (_ & _ & _ & _ & ? & _).
  - intros c tr c2 i file' r clock c3 Hnone Hexec Hquiet Hlook Hstep.
    simpl in Hexec.
    assert (Hinv : single_selection t file c2).
    { eapply exec_single_selection; [exact Hquiet| |exact Hexec].
      right. unfold pending_on in *; cbn [app ingesting].
      rewrite filter_app, Hnone, filter_cons_True by done. split; [done|].
      by destruct (begin_writes file t (app c)) as (_ & _ & _ & _ & ? & _). }
    pose proof (lookup_filter (λ p, p.1 = t) _ _ _ Hlook eq_refl) as Hin.
    destruct Hinv as [Hnil|[Hone Hloading]]; unfold pending_on in *.
    { rewrite Hnil in Hin. by apply elem_of_nil in Hin. }
    rewrite Hone in Hin. apply list_elem_of_singleton in Hin as [= ->].
    split; [done|]. split; [done|].
    unfold step in Hstep. rewrite Hlook in Hstep. injection Hstep as <-.
    cbn [app].
    by destruct (settle_writes clock file t r (app c2))
      as (_ & _ & _ & _ & ? & _).
Qed.

Lemma selection_passes_through_loading_witness :
  get input (fileStatus (app (after [select_file input file_a]))) = loading
  ∧ get input (fileStatus
                 (app (after [select_file input file_a;
                              ingest_settles 0 (passes rows_a) tick])))
    = valid.
Proof.
  assert (H : file_a = file_a
              ∧ get input (fileStatus (app (after [select_file input file_a])))
                = loading
              ∧ get input
                  (fileStatus
                     (app (after [select_file input file_a;
                                  ingest_settles 0 (passes rows_a) tick])))
                = verdict (passes rows_a)).
  { refine (proj2 (proj2 (selection_passes_through_loading input file_a))
              start [] (after [select_file input file_a]) 0 file_a
              (passes rows_a) tick
              (after [select_file input file_a;
                      ingest_settles 0 (passes rows_a) tick])
              _ _ _ _ _).
    - reflexivity.
    - vm_compute; reflexivity.
    - constructor.
    - vm_compute; reflexivity.
    - vm_compute; reflexivity. }
  destruct H as (_ & Hloading & Hvalid). split; [exact Hloading|exact Hvalid].
Defined.

(** C6, as stated, fails: a second Input file is dropped before the first
    is validated; the first passes and the slot is [valid]; the second is
    rejected and the slot goes from [valid] to [invalid] in one step. *)
Lemma overlapping_selections_skip_loading :
  get input ∘ fileStatus ∘ app <$> exec overlapping start = Some valid
  ∧ get input ∘ fileStatus ∘ app
    <$> exec (overlapping
              ++ [ingest_settles 0 (rejects ["missing required column: id"])
                    tick])
          start
    = Some invalid.
Proof. split; vm_compute; reflexivity. Qed.


(** *** The log *)

Lemma step_keeps_log e c c' :
  step e c = Some c' → clears_log e c = false →
  logs (app c) `prefix_of` logs (app c').
Proof.
  intros Hstep Hkeep.
  destruct e as [t file|i r clock|clock|j|j r clock|msg ty now|key x clock|];
    simpl in Hkeep; try discriminate Hkeep;
    step_inv Hstep; cbn [app].
  - by destruct (begin_writes file t (app c)) as (_ & _ & -> & _).
  - match goal with |- context [handleFileChange_settle _ ?f ?t _ _] =>
      by destruct (settle_writes clock f t r (app c))
        as (_ & _ & _ & _ & _ & ? & _)
    end.
  - pose proof (run_begin_writes clock (app c)) as Hw. rewrite Hpair in Hw.
    destruct Hw as (_ & _ & Hrefused & Hstarted). destruct b.
    + unfold handleRunTransformation_begin in Hpair.
      apply negb_false_iff in Hkeep. rewrite Hkeep in Hpair.
      by injection Hpair.
    + by apply Hrefused.
  - done.
  - by destruct (run_settle_writes clock r (app c)) as (_ & _ & _ & ? & _).
  - by apply prefix_app_r.
  - by destruct (download_writes key (download_name key) clock x (app c))
      as (_ & _ & _ & _ & _ & _ & _ & ?).
Qed.

(** C8, as amended.  When a validation fails, every error of
    [ValidationResult.errors] is appended to the log, in order, as an
    [error] entry; and no event removes an entry from the log, except a
    reset and the start of a run, which both empty it. *)
Theorem log_is_append_only :
  (∀ clock file t jsonData validation s,
     isValid validation = false →
     logs (handleFileChange_settle clock file t
             (Returned (jsonData, validation)) s)
     = logs s ++ error_entries clock (errors validation))
  ∧ (∀ e c c',
       step e c = Some c' → clears_log e c = false →
       logs (app c) `prefix_of` logs (app c')).
Proof.
  split.
  - intros clock file t jsonData validation s Hbad.
    unfold handleFileChange_settle. rewrite Hbad.
    by rewrite addLog_each_logs.
  - apply step_keeps_log.
Qed.

Lemma log_is_append_only_witness :
  logs (handleFileChange_settle tick file_c input
          (rejects ["missing required column: id"; "Row 2: empty key"])
          (app (after load_both)))
  = logs (app (after load_both))
    ++ error_entries tick ["missing required column: id"; "Row 2: empty key"]
  ∧ logs (app (after load_both))
    `prefix_of` logs (app (after (load_both ++ [select_file input file_c]))).
Proof.
  split.
  - refine (proj1 log_is_append_only tick file_c input None
              {| isValid := false;
                 errors := ["missing required column: id";
                            "Row 2: empty key"] |}
              (app (after load_both)) _).
    reflexivity.
  - refine (proj2 log_is_append_only (select_file input file_c)
              (after load_both)
              (after (load_both ++ [select_file input file_c])) _ _).
    + vm_compute; reflexivity.
    + reflexivity.
Defined.

(** C8, as stated, fails: the two entries logged by the ingestions are
    removed when a run starts, without any reset. *)
Lemma run_start_empties_log :
  logs ∘ app <$> exec load_both start
  = Some [ {| message := "'input.xlsx' loaded and validated successfully.";
              type := success; timestamp := tick 0 |};
           {| message := "'results.xlsx' loaded and validated successfully.";
              type := success; timestamp := tick 0 |} ]
  ∧ logs ∘ app <$> exec (load_both ++ [click_run tick]) start
    = Some [ {| message := "Starting transformation process...";
                type := info; timestamp := tick 0 |} ].
Proof. split; vm_compute; reflexivity. Qed.

(** *** The bundle and the pair of datasets *)

Lemma step_in_operation e c c' :
  is_user e = false → in_operation c → step e c = Some c' → in_operation c'.
Proof.
  unfold in_operation. intros Henv Hinv Hstep.
  destruct e as [t file|i r clock|clock|j|j r clock|msg ty now|key x clock|];
    simpl in Henv; try discriminate Henv;
    step_inv Hstep; cbn [app running ingesting].
  - (* ingest_settles *)
    destruct Hinv as [[Hnone Hidle]|[Hnil _]].
    + left. split; [|done].
      match goal with |- context [handleFileChange_settle _ ?f ?t _ _] =>
        by destruct (settle_writes clock f t r (app c))
          as (_ & _ & -> & _)
      end.
    + rewrite Hnil in Hlook. done.
  - (* timer_fires *)
    destruct Hinv as [[_ Hidle]|?]; [|by right].
    rewrite Hidle in Hlook. done.
  - (* process_settles *)
    destruct Hinv as [[_ Hidle]|(? & Hv & Hc)].
    + rewrite Hidle in Hlook. done.
    + right. split; [done|]. unfold both_valid, both_cached in *.
      destruct (run_settle_writes clock r (app c)) as (_ & -> & -> & _).
      done.
  - (* sink_log *) done.
Qed.

Lemma exec_in_operation tr c c' :
  Forall (λ e, is_user e = false) tr →
  in_operation c → exec tr c = Some c' → in_operation c'.
Proof.
  intros Henv. revert c.
  induction Henv as [|e tr He _ IH]; intros c Hinv Hexec; simpl in Hexec.
  - by injection Hexec as <-.
  - destruct (step e c) as [c1|] eqn:Hstep; [|done].
    eauto using step_in_operation.
Qed.

Lemma quiescent_spec c :
  quiescent c = true ↔ ingesting c = [] ∧ running c = [].
Proof.
  unfold quiescent. by rewrite andb_true_iff, !bool_decide_eq_true.
Qed.

Lemma user_step_in_operation e c c' :
  is_user e = true → quiescent c = true →
  (is_Some (outputData (app c)) → both_valid (app c) ∧ both_cached (app c)) →
  step e c = Some c' → in_operation c'.
Proof.
  unfold in_operation. intros Huser [Hnil Hidle]%quiescent_spec Hinv Hstep.
  destruct e as [t file|i r clock|clock|j|j r clock|msg ty now|key x clock|];
    simpl in Huser; try discriminate Huser;
    step_inv Hstep; cbn [app running ingesting].
  - (* select_file *)
    left. split; [|done].
    by destruct (begin_writes file t (app c)) as (_ & -> & _).
  - (* click_run *)
    apply run_enabled_spec in Hif as [Hvalid _].
    pose proof (run_begin_writes clock (app c)) as Hw. rewrite Hpair in Hw.
    destruct Hw as (Hs & Hc & Hrefused & Hstarted).
    unfold both_valid, both_cached in *. destruct b.
    + right. rewrite Hs, Hc. split; [done|]. split; [done|].
      by apply Hstarted.
    + destruct (Hrefused eq_refl) as (_ & Ho & _).
      destruct (outputData (app c)) as [o|] eqn:Hout.
      * right. rewrite Hs, Hc. split; [done|]. apply Hinv. by eexists.
      * left. by split.
  - (* click_download *)
    destruct (download_writes key (download_name key) clock x (app c))
      as (_ & Hs & _ & _ & Ho & _ & Hc & _).
    apply bool_decide_eq_true in Hif.
    right. split; [done|]. unfold both_valid, both_cached in *.
    rewrite Hs, Hc. by apply Hinv.
  - (* click_reset *)
    left. by split.
Qed.


Lemma in_turn_invariant c :
  reachable_in_turn c →
  quiescent c = true
  ∧ (is_Some (outputData (app c)) → both_valid (app c) ∧ both_cached (app c)).
Proof.
  induction 1 as [|c tr c' _ [Hq Hinv] Hop Hexec Hq'].
  - split; [done|]. by intros [? ?].
  - split; [done|]. destruct tr as [|e rest]; [done|].
    destruct Hop as [Huser Henv]. simpl in Hexec.
    destruct (step e c) as [c1|] eqn:Hstep; [|done].
    assert (Hop : in_operation c').
    { eapply exec_in_operation; [exact Henv| |exact Hexec].
      exact (user_step_in_operation e c c1 Huser Hq Hinv Hstep). }
    intros [o Ho]. destruct Hop as [[Hnone _]|(_ & ? & ?)]; [|done].
    congruence.
Qed.

Lemma step_apart_in_operation e c c' :
  in_operation c → apart e c = true → step e c = Some c' → in_operation c'.
Proof.
  intros Hinv Hapart Hstep.
  destruct (is_user e) eqn:Huser; [|by eapply step_in_operation].
  unfold in_operation in *.
  destruct e as [t file|i r clock|clock|j|j r clock|msg ty now|key x clock|];
    simpl in Huser, Hapart; try discriminate Huser;
    try apply bool_decide_eq_true in Hapart;
    step_inv Hstep; cbn [app running ingesting].
  - (* select_file *)
    left. split; [|done].
    by destruct (begin_writes file t (app c)) as (_ & -> & _).
  - (* click_run *)
    apply run_enabled_spec in Hif as [Hvalid _].
    pose proof (run_begin_writes clock (app c)) as Hw. rewrite Hpair in Hw.
    destruct Hw as (Hs & Hc & Hrefused & Hstarted).
    unfold both_valid, both_cached in *. destruct b.
    + right. rewrite Hs, Hc. split; [done|]. split; [done|].
      by apply Hstarted.
    + destruct (Hrefused eq_refl) as (_ & Ho & _). rewrite Ho, Hs, Hc.
      destruct Hinv as [?|(_ & ? & ?)]; [by left|by right].
  - (* click_download *)
    destruct (download_writes key (download_name key) clock x (app c))
      as (_ & Hs & _ & _ & Ho & _ & Hc & _).
    unfold both_valid, both_cached in *. by rewrite Ho, Hs, Hc.
  - (* click_reset *)
    left. by split.
Qed.

Lemma exec_apart_in_operation tr c c' :
  in_operation c → exec_apart tr c = Some c' → in_operation c'.
Proof.
  revert c. induction tr as [|e tr IH]; intros c Hinv Hexec; simpl in Hexec.
  - by injection Hexec as <-.
  - destruct (apart e c) eqn:Hapart; [|done].
    destruct (step e c) as [c1|] eqn:Hstep; [|done].
    eauto using step_apart_in_operation.
Qed.

Lemma exec_apart_app tr1 tr2 c c1 c2 :
  exec_apart tr1 c = Some c1 → exec_apart tr2 c1 = Some c2 →
  exec_apart (tr1 ++ tr2) c = Some c2.
Proof.
  revert c. induction tr1 as [|e tr1 IH]; intros c; simpl.
  - by intros [= ->].
  - destruct (apart e c); [|done]. destruct (step e c); [|done]. apply IH.
Qed.

Lemma exec_env_apart tr c c' :
  Forall (λ e, is_user e = false) tr →
  exec tr c = Some c' → exec_apart tr c = Some c'.
Proof.
  intros Henv. revert c.
  induction Henv as [|e tr He _ IH]; intros c Hexec; simpl in *; [done|].
  assert (apart e c = true) as -> by (by destruct e).
  destruct (step e c); [by apply IH|done].
Qed.

(** Operations taken in turn keep runs apart from what changes the slots. *)
Lemma in_turn_apart c :
  reachable_in_turn c → ∃ tr, exec_apart tr start = Some c.
Proof.
  induction 1 as [|c tr c' Hreach [tr0 Htr0] Hop Hexec _].
  - by exists [].
  - exists (tr0 ++ tr). eapply exec_apart_app; [exact Htr0|].
    destruct tr as [|e rest]; [done|]. destruct Hop as [Huser Henv].
    simpl in *.
    apply in_turn_invariant in Hreach as [[Hnil Hidle]%quiescent_spec _].
    assert (apart e c = true) as ->.
    { destruct e; simpl; try done; by apply bool_decide_eq_true. }
    destruct (step e c); [by apply exec_env_apart|done].
Qed.

(** C9, as amended.  In every state reached with no file selected and no
    reset made while a run is in flight, and no run started while an
    ingestion is in flight, a bundle is on display only with both slots
    [valid] and both record sets cached; and every file selection and every
    reset sets [outputData] to null. *)
Theorem bundle_needs_valid_pair :
  (∀ tr c, exec_apart tr start = Some c → is_Some (outputData (app c)) →
           both_valid (app c) ∧ both_cached (app c))
  ∧ (∀ file t s, outputData (handleFileChange_begin file t s) = None)
  ∧ (∀ s, outputData (handleReset s) = None).
Proof.
  split; [|by split].
  intros tr c Hreach [o Ho].
  assert (Hop : in_operation c).
  { eapply exec_apart_in_operation; [|exact Hreach]. by left. }
  destruct Hop as [[Hnone _]|(_ & ? & ?)]; [congruence|done].
Qed.

Lemma bundle_needs_valid_pair_witness :
  both_valid (app (after both_at_once))
  ∧ both_cached (app (after both_at_once)).
Proof.
  refine (proj1 bundle_needs_valid_pair both_at_once (after both_at_once) _ _).
  - vm_compute; reflexivity.
  - exists bundle. vm_compute; reflexivity.
Defined.

(** C9, as stated, fails: a new Input file is dropped while a run is in
    flight; the run completes and shows its bundle; the new file is then
    rejected, which leaves the Input slot [invalid] with nothing cached
    under a bundle that is still on display. *)
Lemma bundle_outlives_rejected_reupload :
  (λ c, (outputData (app c), of_input (fileStatus (app c)),
         of_input (fileDataCache (app c))))
  <$> exec reupload_during_run start
  = Some (Some bundle, invalid, None).
Proof. vm_compute; reflexivity. Qed.

End AppFacts.

(** ** The dropzone *)

Module DropzoneFacts.
Import App Dropzone.

(** X1.  Whatever the status and the file name are (missing, empty), the
    main text of the dropzone is never empty: a valid slot shows its file
    name, and the label "File Validated" when the name is missing or
    empty. *)
Theorem text_never_empty (p : DropzoneProps) :
  text (getStatusContent p) ≠ ""
  ∧ (status p = valid →
     ∀ n, fileName p = Some n → n ≠ "" → text (getStatusContent p) = n)
  ∧ (status p = valid →
     fileName p = None ∨ fileName p = Some "" →
     text (getStatusContent p) = "File Validated").
Proof.
  unfold getStatusContent, or_else. split; [|split].
  - destruct (status p); simpl; try done.
    destruct (fileName p) as [n|]; [|done]. by destruct (decide (n = "")).
  - intros -> n -> Hn; simpl. by destruct (decide (n = "")).
  - intros -> [->| ->]; by simpl.
Qed.

Lemma text_never_empty_witness :
  text (getStatusContent
          {| title := "Input File"; description := "e.g. x.xlsx";
             status := valid; fileName := Some "land.xlsx";
             errorMessage := None |})
  = "land.xlsx"
  ∧ text (getStatusContent
            {| title := "Input File"; description := "e.g. x.xlsx";
               status := valid; fileName := Some "";
               errorMessage := None |})
    = "File Validated".
Proof.
  split.
  - refine (proj1 (proj2 (text_never_empty _)) _ "land.xlsx" _ _).
    + reflexivity.
    + reflexivity.
    + discriminate.
  - refine (proj2 (proj2 (text_never_empty _)) _ _).
    + reflexivity.
    + right; reflexivity.
Defined.

(** X2.  Under the main text the dropzone renders at most one paragraph,
    none while loading; when the status is [invalid] the paragraph is the
    error message, rendered exactly when the message is present and not
    empty. *)
Theorem details_at_most_one (p : DropzoneProps) :
  (length (details p) ≤ 1)%nat
  ∧ (status p = loading → details p = [])
  ∧ (status p = invalid →
     ∀ m, m ∈ content <$> details p ↔ errorMessage p = Some m ∧ m ≠ "").
Proof.
  unfold details. split; [|split].
  - destruct (status p); simpl; try lia.
    destruct (errorMessage p) as [m'|]; [|simpl; lia].
    destruct (decide (m' = "")); simpl; lia.
  - by intros ->.
  - intros -> m; simpl.
    destruct (errorMessage p) as [m'|]; [destruct (decide (m' = ""))|];
      simpl; rewrite ?list_elem_of_singleton, ?elem_of_nil.
    + split; [done|]. intros [[= ->] ?]. done.
    + split; [by intros ->|]. by intros [[= ->] _].
    + split; [done|]. by intros [? _].
Qed.

Lemma details_at_most_one_witness :
  "missing required column: id"
  ∈ content <$> details {| title := "Input File"; description := "e.g. x.xlsx";
                           status := invalid; fileName := Some "land.xlsx";
                           errorMessage := Some "missing required column: id" |}.
Proof.
  refine (proj2 (proj2 (proj2 (details_at_most_one _)) _ _) _).
  - reflexivity.
  - split; [reflexivity|discriminate].
Defined.

Lemma handle_all_cons e es d :
  handle_all (e :: es) d
  = ((handle_all es (handle e d).1).1,
     (handle e d).2 ++ (handle_all es (handle e d).1).2).
Proof.
  simpl. destruct (handle e d) as [d1 effs]; simpl.
  by destruct (handle_all es d1).
Qed.

Lemma handle_outcome e d :
  (handle e d).1 = default d (sets_highlight e)
  ∧ selected (handle e d).2 = option_list (first_file e).
Proof.
  destruct e as [| | |[[|file rest]|]|[[|file rest]|]]; by simpl.
Qed.

Lemma handle_all_selected es d :
  selected (handle_all es d).2 = omap first_file es.
Proof.
  revert d. induction es as [|e es IH]; intros d; [done|].
  rewrite handle_all_cons; cbn [snd]. unfold selected in *.
  rewrite omap_app, IH.
  destruct (handle_outcome e d) as [_ He]. unfold selected in He.
  rewrite He. simpl. by destruct (first_file e).
Qed.

Lemma handle_all_highlight es d :
  (handle_all es d).1 = default d (last (omap sets_highlight es)).
Proof.
  revert d. induction es as [|e es IH]; intros d; [done|].
  rewrite handle_all_cons; cbn [fst]. rewrite IH.
  destruct (handle_outcome e d) as [-> _]. simpl.
  destruct (sets_highlight e) as [b|]; simpl; [|done].
  rewrite last_cons.
  change (list_omap _ _ sets_highlight es) with (omap sets_highlight es).
  by destruct (last (omap sets_highlight es)).
Qed.

(** X3.  After any sequence of DOM events handled by the dropzone, its
    border is red exactly when the status is [invalid] and the [isDragOver]
    flag is off, that is when the last dragenter, dragleave or drop handled
    was not a dragenter (the initial flag when there was none).  The flag is
    a boolean, not a count: one dragleave clears it after any number of
    dragenters. *)
Theorem border_red_iff (es : list DomEvent) (d : bool) (p : DropzoneProps) :
  (border (handle_all es d).1 p = "border-red-500"
   ↔ status p = invalid
     ∧ default d (last (omap sets_highlight es)) = false)
  ∧ ∀ n, (handle_all (es ++ replicate n dragenter ++ [dragleave]) d).1
         = false.
Proof.
  split.
  - rewrite handle_all_highlight. unfold border, getStatusContent.
    destruct (default d (last (omap sets_highlight es))), (status p);
      simpl; split; try done; by intros [? ?].
  - intros n. rewrite handle_all_highlight, app_assoc, omap_app; simpl.
    by rewrite last_snoc.
Qed.

(** X4.  For every sequence of DOM events on a dropzone: the files handed
    to [onFileSelect] are the first files of the drops and of the changes
    that carry at least one file, in order, whatever the drag state is; and
    the highlight at the end is the one set by the last enter, leave or
    drop (a drop always ends it). *)
Theorem handle_all_outcome (es : list DomEvent) (d : bool) :
  selected (handle_all es d).2 = omap first_file es
  ∧ (handle_all es d).1 = default d (last (omap sets_highlight es))
  ∧ ∀ files, (handle_all (es ++ [drop files]) d).1 = false.
Proof.
  split; [apply handle_all_selected|]. split; [apply handle_all_highlight|].
  intros files. rewrite handle_all_highlight, omap_app; simpl.
  by rewrite last_snoc.
Qed.

End DropzoneFacts.

(** ** The page: handlers, event loop and dropzones together *)

Module PageFacts.
Import App Page AppFacts.

Lemma exec_snoc tr1 tr2 c c1 c2 :
  exec tr1 c = Some c1 → exec tr2 c1 = Some c2 → exec (tr1 ++ tr2) c = Some c2.
Proof.
  revert c. induction tr1 as [|e tr1 IH]; intros c; simpl.
  - by intros [= ->].
  - destruct (step e c); [|done]. apply IH.
Qed.

(** Handlers that leave the slots alone. *)
Lemma run_begin_same_slots clock s :
  same_slots s (handleRunTransformation_begin clock s).1
  ∧ resetKey (handleRunTransformation_begin clock s).1 = resetKey s.
Proof.
  unfold handleRunTransformation_begin, same_slots.
  by destruct (cache_missing s).
Qed.

Lemma run_settle_same_slots clock r s :
  same_slots s (handleRunTransformation_settle clock r s)
  ∧ resetKey (handleRunTransformation_settle clock r s) = resetKey s.
Proof.
  unfold handleRunTransformation_settle, same_slots.
  by destruct r as [[o|]|msg].
Qed.

Lemma download_same_slots key fileName clock x s :
  same_slots s (handleDownload key fileName clock x s).1.
Proof.
  destruct (download_writes key fileName clock x s)
    as (? & ? & ? & _ & _ & _ & ? & _).
  by repeat split.
Qed.

Lemma same_slots_rest t s s' : same_slots s s' → slot_rest t s → slot_rest t s'.
Proof. unfold slot_rest. by intros (-> & -> & -> & ->). Qed.

(** *** Downloads *)

(** X5.  With a bundle on display and a category that is not empty,
    [handleDownload] hands exactly the rows of that category to the encoder
    first and makes the external calls in the fixed order: all of them when
    they all return, and otherwise up to and including the one that throws,
    so that [saveAs] is reached only when every call before it has
    returned.  It logs two entries, the last of which is a [success] entry
    exactly when all the calls returned. *)
Theorem download_exports_category
    (key : OutputKey) (fileName : string) (clock : Clock) (x : Exporting)
    (s : State) (o : OutputData) :
  outputData s = Some o → category key o ≠ [] →
  let s' := (handleDownload key fileName clock x s).1 in
  let calls := (handleDownload key fileName clock x s).2 in
  calls `prefix_of` export_calls (category key o) fileName
  ∧ head calls = Some (XLSX_json_to_sheet (category key o))
  ∧ (saveAs fileName ∈ calls ↔ reaches_saveAs x = true)
  ∧ length (logs s') = length (logs s) + 2
  ∧ (∃ e, last (logs s') = Some e ∧ (type e = success ↔ x = all_return))
  ∧ (x = all_return → calls = export_calls (category key o) fileName)
  ∧ (∀ c msg, x = throws c msg →
       last calls = Some (call_at c (category key o) fileName)
       ∧ length calls = S (step_index c)).
Proof.
  intros Ho Hrows. unfold handleDownload. rewrite Ho.
  rewrite bool_decide_eq_false_2 by (by destruct (category key o)).
  destruct x as [|c msg]; cbn [fst snd].
  - split; [done|]. split; [done|]. split.
    { split; [done|]. intros _. unfold export_calls.
      rewrite !elem_of_cons. tauto. }
    split.
    { unfold addLog, setLogs; simpl. rewrite !length_app; simpl. lia. }
    split.
    { eexists. split; [unfold addLog, setLogs; simpl; apply last_snoc|].
      done. }
    split; [done|]. intros c msg Hx. discriminate Hx.
  - split; [apply prefix_take|]. split; [done|]. split.
    { destruct c; simpl; rewrite ?elem_of_cons, ?elem_of_nil;
        split; try done; try tauto; intros H; repeat destruct H as [H|H];
        done. }
    split.
    { unfold addLog, setLogs; simpl. rewrite !length_app; simpl. lia. }
    split.
    { eexists. split; [unfold addLog, setLogs; simpl; apply last_snoc|].
      done. }
    split; [done|]. intros c' msg' [= <- <-]. by destruct c.
Qed.

Lemma download_exports_category_witness :
  saveAs "3_Contacted_Data.xlsx"
  ∈ (handleDownload key_contacted "3_Contacted_Data.xlsx" tick all_return
       (app (after (load_both ++ good_run)))).2.
Proof.
  refine (proj2 (proj1 (proj2 (proj2
            (download_exports_category key_contacted "3_Contacted_Data.xlsx"
               tick all_return (app (after (load_both ++ good_run))) bundle
               _ _)))) _).
  - vm_compute; reflexivity.
  - discriminate.
  - reflexivity.
Defined.


(** *** Operations that overlap *)

Lemma lookup_snoc_last {A} (l : list A) x : (l ++ [x]) !! length l = Some x.
Proof. by rewrite lookup_app_r, Nat.sub_diag by lia. Qed.

(** X6.  A reset does not cancel an ingestion that is in flight: when the
    ingestion settles after the reset it still writes its verdict (and, when
    it passes, its records) into the slot, whose selected file the reset has
    cleared; the other slot stays [waiting]. *)
Theorem reset_keeps_ingestion_in_flight
    (c : Config) (i : nat) (t : FileType) (file : File)
    (r : Settled Ingested) (clock : Clock) :
  ingesting c !! i = Some (t, file) →
  reset_rendered (app c) = true →
  ∃ c', exec [click_reset; ingest_settles i r clock] c = Some c'
        ∧ get t (fileStatus (app c')) = verdict r
        ∧ get t (files (app c')) = None
        ∧ get (other t) (fileStatus (app c')) = waiting
        ∧ (verdict r = valid →
           ∃ jsonData validation,
             r = Returned (jsonData, validation)
             ∧ get t (fileDataCache (app c')) = jsonData).
Proof.
  intros Hlook Hshown. simpl. rewrite Hshown; cbn [ingesting app].
  rewrite Hlook. eexists. split; [done|]. cbn [app].
  destruct (settle_writes clock file t r (handleReset (app c)))
    as (Hfiles & _ & _ & _ & Hverdict & _ & Hother).
  split; [done|]. split; [rewrite Hfiles; by destruct t|].
  split.
  { destruct (Hother (other t)) as (-> & _); by destruct t. }
  destruct r as [[jsonData validation]|msg]; simpl; [|done].
  destruct (isValid validation) eqn:Hv; [|done].
  intros _. exists jsonData, validation. split; [done|].
  unfold handleFileChange_settle. rewrite ?Hv. simpl. by rewrite get_set.
Qed.

Lemma reset_keeps_ingestion_in_flight_witness :
  ∃ c', exec [click_reset; ingest_settles 0 (passes rows_a) tick]
          (after [select_file input file_a]) = Some c'
        ∧ get input (fileStatus (app c')) = verdict (passes rows_a)
        ∧ get input (files (app c')) = None
        ∧ get (other input) (fileStatus (app c')) = waiting
        ∧ (verdict (passes rows_a) = valid →
           ∃ jsonData validation,
             passes rows_a = Returned (jsonData, validation)
             ∧ get input (fileDataCache (app c')) = jsonData).
Proof.
  refine (reset_keeps_ingestion_in_flight (after [select_file input file_a])
            0 input file_a (passes rows_a) tick _ _).
  - vm_compute; reflexivity.
  - vm_compute; reflexivity.
Defined.

(** X7.  A reset does not cancel a run that is in flight either: the run
    stays in flight with [isProcessing] set, so the run button stays
    disabled, and when the run completes its bundle is put on display over
    two slots that are [waiting] with nothing cached. *)
Theorem reset_keeps_run_in_flight (tr : list Event) (c : Config) :
  exec tr start = Some c →
  running c ≠ [] →
  reset_rendered (app c) = true →
  ∃ c1, step click_reset c = Some c1
        ∧ running c1 = running c
        ∧ isProcessing (app c1) = true
        ∧ (∀ clock, step (click_run clock) c1 = None)
        ∧ ∀ j output clock c2,
            step (process_settles j (Returned (Some output)) clock) c1
            = Some c2 →
            outputData (app c2) = Some output
            ∧ fileStatus (app c2)
              = {| of_input := waiting; of_results := waiting |}
            ∧ fileDataCache (app c2)
              = {| of_input := None; of_results := None |}.
Proof.
  intros Hreach Hrun Hshown.
  pose proof (reachable_one_run _ _ Hreach) as Hone. unfold one_run in Hone.
  destruct (running c) as [|stage [|]] eqn:Hr; [done| |done].
  destruct Hone as [Hbusy _].
  unfold step at 1. rewrite Hshown. eexists. split; [done|].
  cbn [running app]. split; [done|]. split; [done|]. split.
  - intros clock. unfold step, run_enabled; cbn [app].
    change (isProcessing (handleReset (app c))) with (isProcessing (app c)).
    rewrite Hbusy. by rewrite orb_true_r.
  - intros j output clock c2 Hstep. step_inv Hstep; cbn [app].
    destruct (run_settle_writes clock (Returned (Some output))
                (handleReset (app c))) as (_ & -> & -> & _ & ->).
    done.
Qed.

Lemma reset_keeps_run_in_flight_witness :
  ∃ c1, step click_reset (after (load_both ++ [click_run tick; timer_fires 0]))
        = Some c1
        ∧ running c1
          = running (after (load_both ++ [click_run tick; timer_fires 0]))
        ∧ isProcessing (app c1) = true
        ∧ (∀ clock, step (click_run clock) c1 = None)
        ∧ ∀ j output clock c2,
            step (process_settles j (Returned (Some output)) clock) c1
            = Some c2 →
            outputData (app c2) = Some output
            ∧ fileStatus (app c2)
              = {| of_input := waiting; of_results := waiting |}
            ∧ fileDataCache (app c2)
              = {| of_input := None; of_results := None |}.
Proof.
  refine (reset_keeps_run_in_flight
            (load_both ++ [click_run tick; timer_fires 0])
            (after (load_both ++ [click_run tick; timer_fires 0])) _ _ _).
  - vm_compute; reflexivity.
  - vm_compute; discriminate.
  - vm_compute; reflexivity.
Defined.

(** X8.  When the processing call of a run settles, whether it returns a
    bundle or fails, no run is left in flight and [isProcessing] is false
    again, so the run button is enabled exactly when both slots are
    [valid]; the last entry of the log is a [success] entry exactly when the
    run did not fail. *)
Theorem settled_run_frees_button
    (tr : list Event) (c c' : Config) (j : nat)
    (r : Settled (option OutputData)) (clock : Clock) :
  exec tr start = Some c →
  step (process_settles j r clock) c = Some c' →
  running c' = []
  ∧ isProcessing (app c') = false
  ∧ run_enabled (app c') = canRun (app c)
  ∧ ∃ e, last (logs (app c')) = Some e
         ∧ (type e = success ↔ fails r = false).
Proof.
  intros Hreach Hstep.
  pose proof (reachable_one_run _ _ Hreach) as Hone. unfold one_run in Hone.
  step_inv Hstep; cbn [app running].
  destruct (running c) as [|stage [|]] eqn:Hr; [done| |done].
  destruct j; [|done]. split; [done|].
  unfold handleRunTransformation_settle, run_enabled, canRun.
  destruct r as [[output|]|msg]; simpl;
    (split; [done|]); (split; [by rewrite orb_false_r, negb_involutive|]);
    (eexists; split; [apply last_snoc|done]).
Qed.

Lemma settled_run_frees_button_witness :
  running (after (load_both ++ bad_run)) = []
  ∧ isProcessing (app (after (load_both ++ bad_run))) = false
  ∧ run_enabled (app (after (load_both ++ bad_run)))
    = canRun (app (after (load_both ++ [click_run tick; timer_fires 0])))
  ∧ ∃ e, last (logs (app (after (load_both ++ bad_run)))) = Some e
         ∧ (type e = success ↔ fails (Threw "empty input") = false).
Proof.
  refine (settled_run_frees_button
            (load_both ++ [click_run tick; timer_fires 0])
            (after (load_both ++ [click_run tick; timer_fires 0]))
            (after (load_both ++ bad_run)) 0 (Threw "empty input") tick _ _).
  - vm_compute; reflexivity.
  - vm_compute; reflexivity.
Defined.

(** X9.  The processing call is given what the cache holds when the 100 ms
    timer fires, not what it held at the click: when a file is dropped on a
    slot and passes validation between the click and the timer, the run
    processes the records of that file. *)
Theorem processing_reads_cache_at_timer
    (tr : list Event) (c c' : Config) (clock clock' : Clock)
    (t : FileType) (file : File) (d : JsonData)
    (validation : ValidationResult) :
  exec tr start = Some c →
  isValid validation = true →
  exec [ click_run clock; select_file t file;
         ingest_settles (length (ingesting c))
           (Returned (Some d, validation)) clock';
         timer_fires 0 ] c = Some c' →
  ∃ a b, running c' = [awaiting_process a b]
         ∧ get t {| of_input := a; of_results := b |} = Some d.
Proof.
  intros Hreach Hvalid Hexec.
  pose proof (reachable_one_run _ _ Hreach) as Hone. unfold one_run in Hone.
  cbn [exec] in Hexec.
  destruct (step (click_run clock) c) as [c1|] eqn:H1; [|done].
  step_inv H1. cbn [step app ingesting running] in Hexec.
  apply run_enabled_spec in Hif as [_ Hidle].
  destruct (running c) as [|? ?] eqn:Hr;
    [|destruct l; [destruct Hone; congruence|done]].
  rewrite lookup_snoc_last in Hexec. cbn [app ingesting running] in Hexec.
  destruct b; simpl in Hexec; [|done].
  injection Hexec as <-. cbn [running].
  eexists _, _. split; [done|].
  unfold handleFileChange_settle. rewrite Hvalid.
  destruct t; done.
Qed.

Lemma processing_reads_cache_at_timer_witness :
  ∃ a b,
    running (after (load_both
                    ++ [ click_run tick; select_file input file_c;
                         ingest_settles 0
                           (Returned (Some [[("id", "B7")]],
                                      {| isValid := true; errors := [] |}))
                           tick;
                         timer_fires 0 ]))
    = [awaiting_process a b]
    ∧ get input {| of_input := a; of_results := b |} = Some [[("id", "B7")]].
Proof.
  refine (processing_reads_cache_at_timer load_both (after load_both) _
            tick tick input file_c [[("id", "B7")]]
            {| isValid := true; errors := [] |} _ _ _).
  - vm_compute; reflexivity.
  - reflexivity.
  - vm_compute; reflexivity.
Defined.


(** *** Operations taken in turn *)

Lemma settle_own_slot clock file t r s :
  let s' := handleFileChange_settle clock file t r s in
  match verdict r with
  | valid => get t (fileErrors s') = get t (fileErrors s)
  | _ => get t (fileDataCache s') = None
  end.
Proof.
  unfold handleFileChange_settle.
  destruct r as [[jsonData validation]|msg]; simpl;
    [destruct (isValid validation); [|rewrite addLog_each_eq]|]; simpl;
    by rewrite ?get_set.
Qed.

Lemma step_slots_in_operation e c c' :
  is_user e = false →
  slots_in_operation c → step e c = Some c' → slots_in_operation c'.
Proof.
  unfold slots_in_operation. intros Henv Hinv Hstep.
  destruct e as [t file|i r clock|clock|j|j r clock|msg ty now|key x clock|];
    simpl in Henv; try discriminate Henv;
    step_inv Hstep; cbn [app running ingesting].
  - (* ingest_settles *)
    destruct (ingesting c) as [|[t0 file0] [|]]; [done| |done].
    destruct i; [|done]. injection Hlook as -> ->. simpl.
    destruct Hinv as (_ & Hfile & Herr & Hother).
    match goal with |- context [handleFileChange_settle _ ?f0 ?t0 _ _] =>
      destruct (settle_writes clock f0 t0 r (app c))
        as (Hfiles & _ & _ & _ & Hverdict & _ & Hframe);
      pose proof (settle_own_slot clock f0 t0 r (app c)) as Hown;
      cbv zeta in Hown;
      intros t'; destruct (decide (t' = t0)) as [->|Hne];
      [ unfold slot_rest; rewrite Hverdict, Hfiles;
        destruct (verdict r) eqn:Hv; try done;
        [ by destruct r as [[? v]|]; [simpl in Hv; destruct (isValid v)|]
        | by destruct r as [[? v]|]; [simpl in Hv; destruct (isValid v)|]
        | split; [done|congruence] ]
      | destruct (Hframe t' Hne) as (Hs & He & Hc);
        assert (t' = other t0) as -> by (by destruct t', t0);
        unfold slot_rest in *; by rewrite Hs, He, Hc, Hfiles ]
    end.
  - (* timer_fires *) done.
  - (* process_settles *)
    destruct (run_settle_same_slots clock r (app c)) as [Hsame _].
    destruct (ingesting c) as [|[t0 file0] [|]]; [| |done].
    + intros t. by eapply same_slots_rest.
    + destruct Hsame as (Hf & Hs & He & Hc). rewrite Hf, Hs, He.
      destruct Hinv as (? & ? & ? & ?). repeat split; try done.
      eapply same_slots_rest; [|done]. by repeat split.
  - (* sink_log *) done.
Qed.

Lemma exec_slots_in_operation tr c c' :
  Forall (λ e, is_user e = false) tr →
  slots_in_operation c → exec tr c = Some c' → slots_in_operation c'.
Proof.
  intros Henv. revert c.
  induction Henv as [|e tr He _ IH]; intros c Hinv Hexec; simpl in Hexec.
  - by injection Hexec as <-.
  - destruct (step e c) as [c1|] eqn:Hstep; [|done].
    eauto using step_slots_in_operation.
Qed.

Lemma user_step_slots_in_operation e c c' :
  is_user e = true → ingesting c = [] →
  (∀ t, slot_rest t (app c)) →
  step e c = Some c' → slots_in_operation c'.
Proof.
  unfold slots_in_operation. intros Huser Hnil Hinv Hstep.
  destruct e as [t file|i r clock|clock|j|j r clock|msg ty now|key x clock|];
    simpl in Huser; try discriminate Huser;
    step_inv Hstep; cbn [app running ingesting]; rewrite Hnil; simpl.
  - (* select_file *)
    destruct (begin_writes file t (app c)) as (_ & _ & _ & Hc & Hl & Hframe).
    split; [done|]. split; [by destruct t|]. split; [by destruct t|].
    destruct (Hframe (other t)) as (Hs & He & Hf); [by destruct t|].
    specialize (Hinv (other t)). unfold slot_rest in *.
    by rewrite Hs, He, Hf, Hc.
  - (* click_run *)
    pose proof (run_begin_same_slots clock (app c)) as [Hsame _].
    rewrite Hpair in Hsame. intros t. by eapply same_slots_rest.
  - (* click_download *)
    intros t. eapply same_slots_rest; [apply download_same_slots|done].
  - (* click_reset *)
    by intros [].
Qed.

Lemma in_turn_slots c :
  reachable_in_turn c → ∀ t, slot_rest t (app c).
Proof.
  induction 1 as [|c tr c' Hreach Hinv Hop Hexec Hq'].
  - by intros [].
  - destruct tr as [|e rest]; [done|].
    destruct Hop as [Huser Henv]. simpl in Hexec.
    destruct (step e c) as [c1|] eqn:Hstep; [|done].
    apply quiescent_spec in Hq' as [Hnil' _].
    assert (Hq : ingesting c = []).
    { apply in_turn_invariant in Hreach as [Hq _].
      by apply quiescent_spec in Hq as [? _]. }
    pose proof (exec_slots_in_operation rest c1 c' Henv
                  (user_step_slots_in_operation e c c1 Huser Hq Hinv Hstep)
                  Hexec) as Hop.
    unfold slots_in_operation in Hop. by rewrite Hnil' in Hop.
Qed.

Lemma in_turn_reachable c : reachable_in_turn c → ∃ tr, exec tr start = Some c.
Proof.
  induction 1 as [|c tr c' _ [tr0 Htr0] _ Hexec _].
  - by exists [].
  - exists (tr0 ++ tr). by eapply exec_snoc.
Qed.

Lemma in_turn_rest (c : Config) (t : FileType) :
  reachable_in_turn c →
  isProcessing (app c) = false
  ∧ get t (fileStatus (app c)) ≠ loading
  ∧ (is_Some (get t (fileDataCache (app c))) →
     get t (fileStatus (app c)) = valid)
  ∧ (is_Some (get t (fileErrors (app c))) →
     get t (fileStatus (app c)) = invalid)
  ∧ (is_Some (get t (files (app c))) ↔ get t (fileStatus (app c)) ≠ waiting).
Proof.
  intros Hreach. split.
  { destruct (in_turn_reachable c Hreach) as [tr Htr].
    apply reachable_one_run in Htr. unfold one_run in Htr.
    apply in_turn_invariant in Hreach as [Hq _].
    apply quiescent_spec in Hq as [_ Hidle]. by rewrite Hidle in Htr. }
  pose proof (in_turn_slots c Hreach t) as Hrest. unfold slot_rest in Hrest.
  destruct (get t (fileStatus (app c))); [|done| |].
  - destruct Hrest as (-> & -> & ->).
    repeat split; try done; try (by intros [? ?]).
  - destruct Hrest as (? & ->).
    repeat split; try done; try (by intros [? ?]).
  - destruct Hrest as (? & ->).
    repeat split; try done; try (by intros [? ?]).
Qed.

(** X10.  When the user lets each operation complete before starting the
    next one, the page is consistent at rest: no run is marked in progress;
    no slot is left [loading]; records are cached only for a [valid] slot;
    an error message is held only for an [invalid] slot; and a slot holds a
    selected file exactly when it is not [waiting]. *)
Theorem page_consistent_at_rest (c : Config) (t : FileType) :
  reachable_in_turn c →
  isProcessing (app c) = false
  ∧ get t (fileStatus (app c)) ≠ loading
  ∧ (is_Some (get t (fileDataCache (app c))) →
     get t (fileStatus (app c)) = valid)
  ∧ (is_Some (get t (fileErrors (app c))) →
     get t (fileStatus (app c)) = invalid)
  ∧ (is_Some (get t (files (app c))) ↔ get t (fileStatus (app c)) ≠ waiting).
Proof. apply in_turn_rest. Qed.

Lemma page_consistent_at_rest_witness :
  isProcessing (app (after load_both)) = false
  ∧ get input (fileStatus (app (after load_both))) ≠ loading
  ∧ (is_Some (get input (fileDataCache (app (after load_both)))) →
     get input (fileStatus (app (after load_both))) = valid)
  ∧ (is_Some (get input (fileErrors (app (after load_both)))) →
     get input (fileStatus (app (after load_both))) = invalid)
  ∧ (is_Some (get input (files (app (after load_both))))
     ↔ get input (fileStatus (app (after load_both))) ≠ waiting).
Proof.
  refine (page_consistent_at_rest (after load_both) input _).
  eapply (in_turn_next
            (after [select_file input file_a;
                    ingest_settles 0 (passes rows_a) tick])
            [select_file results file_b;
             ingest_settles 0 (passes rows_b) tick]).
  - eapply (in_turn_next start
              [select_file input file_a;
               ingest_settles 0 (passes rows_a) tick]).
    + apply in_turn_start.
    + split; [reflexivity|repeat constructor].
    + vm_compute; reflexivity.
    + vm_compute; reflexivity.
  - split; [reflexivity|repeat constructor].
  - vm_compute; reflexivity.
  - vm_compute; reflexivity.
Defined.

(** X11.  At rest after operations taken in turn, the guard of the handler
    and the gate of the button agree in one direction: whenever both record
    sets are cached (the guard of [handleRunTransformation] would pass) the
    run button is enabled. *)
Theorem cached_pair_enables_run (c : Config) :
  reachable_in_turn c →
  cache_missing (app c) = false →
  run_enabled (app c) = true.
Proof.
  intros Hreach Hguard.
  destruct (in_turn_rest c input Hreach) as (Hidle & _ & Hi & _).
  destruct (in_turn_rest c results Hreach) as (_ & _ & Hr & _).
  unfold cache_missing in Hguard.
  apply orb_false_iff in Hguard as [H1 H2].
  apply negb_false_iff, bool_decide_eq_true in H1, H2.
  apply run_enabled_spec. split; [|done]. split; [by apply Hi|by apply Hr].
Qed.


Lemma cached_pair_enables_run_witness :
  run_enabled (app (after load_both)) = true.
Proof.
  refine (cached_pair_enables_run (after load_both) _ _).
  - eapply (in_turn_next
              (after [select_file input file_a;
                      ingest_settles 0 (passes rows_a) tick])
              [select_file results file_b;
               ingest_settles 0 (passes rows_b) tick]).
    + eapply (in_turn_next start
                [select_file input file_a;
                 ingest_settles 0 (passes rows_a) tick]).
      * apply in_turn_start.
      * split; [reflexivity|repeat constructor].
      * vm_compute; reflexivity.
      * vm_compute; reflexivity.
    + split; [reflexivity|repeat constructor].
    + vm_compute; reflexivity.
    + vm_compute; reflexivity.
  - vm_compute; reflexivity.
Defined.

(** *** What the dropzones show *)

(** X12.  At rest after operations taken in turn, the dropzone of a [valid]
    slot shows the name of the file selected for it (the fixed label when
    the name is empty) over the line "Ready for transformation". *)
Theorem valid_slot_shows_file_name (c : Config) (t : FileType) :
  reachable_in_turn c →
  get t (fileStatus (app c)) = valid →
  ∃ file,
    get t (files (app c)) = Some file
    ∧ Dropzone.text (Dropzone.getStatusContent (dropzone_props t (app c)))
      = Dropzone.or_else (Some (name file)) "File Validated"
    ∧ Dropzone.content <$> Dropzone.details (dropzone_props t (app c))
      = ["Ready for transformation"].
Proof.
  intros Hreach Hvalid.
  destruct (in_turn_rest c t Hreach) as (_ & _ & _ & _ & Hfile).
  destruct (proj2 Hfile) as [file Hf]; [by rewrite Hvalid|].
  exists file. split; [done|].
  unfold Dropzone.getStatusContent, Dropzone.details, dropzone_props; simpl.
  by rewrite Hvalid, Hf.
Qed.

Lemma valid_slot_shows_file_name_witness :
  ∃ file,
    get input (files (app (after [select_file input file_a;
                                  ingest_settles 0 (passes rows_a) tick])))
    = Some file
    ∧ Dropzone.text
        (Dropzone.getStatusContent
           (dropzone_props input
              (app (after [select_file input file_a;
                           ingest_settles 0 (passes rows_a) tick]))))
      = Dropzone.or_else (Some (name file)) "File Validated"
    ∧ Dropzone.content
      <$> Dropzone.details
            (dropzone_props input
               (app (after [select_file input file_a;
                            ingest_settles 0 (passes rows_a) tick])))
      = ["Ready for transformation"].
Proof.
  refine (valid_slot_shows_file_name
            (after [select_file input file_a;
                    ingest_settles 0 (passes rows_a) tick]) input _ _).
  - eapply (in_turn_next start
              [select_file input file_a;
               ingest_settles 0 (passes rows_a) tick]).
    + apply in_turn_start.
    + split; [reflexivity|repeat constructor].
    + vm_compute; reflexivity.
    + vm_compute; reflexivity.
  - vm_compute; reflexivity.
Defined.

(** X13.  When a validation fails with errors, the dropzone of the slot
    shows "Invalid File" and, under it, the first error only (when it is not
    empty), while the log receives one entry for every error. *)
Theorem rejected_file_shows_first_error
    (clock : Clock) (file : File) (t : FileType) (jsonData : option JsonData)
    (validation : ValidationResult) (s : State) (e : string)
    (rest : list string) :
  isValid validation = false →
  errors validation = e :: rest →
  e ≠ "" →
  let s' := handleFileChange_settle clock file t
              (Returned (jsonData, validation)) s in
  Dropzone.text (Dropzone.getStatusContent (dropzone_props t s'))
  = "Invalid File"
  ∧ Dropzone.content <$> Dropzone.details (dropzone_props t s') = [e]
  ∧ length (logs s') = length (logs s) + S (length rest).
Proof.
  intros Hbad Herrs He s'. subst s'.
  unfold handleFileChange_settle. rewrite Hbad, addLog_each_eq, Herrs.
  unfold Dropzone.getStatusContent, Dropzone.details, dropzone_props; simpl.
  rewrite !get_set; simpl. destruct (decide (e = "")); [done|].
  repeat split. rewrite length_app; simpl. by rewrite length_imap.
Qed.

Lemma rejected_file_shows_first_error_witness :
  Dropzone.content
  <$> Dropzone.details
        (dropzone_props input
           (handleFileChange_settle tick file_c input
              (rejects ["missing required column: id"; "Row 2: empty key"])
              (app (after load_both))))
  = ["missing required column: id"].
Proof.
  refine (proj1 (proj2 (rejected_file_shows_first_error tick file_c input None
              {| isValid := false;
                 errors := ["missing required column: id";
                            "Row 2: empty key"] |}
              (app (after load_both)) "missing required column: id"
              ["Row 2: empty key"] _ _ _))).
  - reflexivity.
  - reflexivity.
  - discriminate.
Defined.

(** X14.  When a validation fails without any error message, the user is
    told nothing: the slot becomes [invalid], its dropzone shows "Invalid
    File" with no paragraph under it, and no entry is added to the log. *)
Theorem rejection_without_errors_is_silent
    (clock : Clock) (file : File) (t : FileType) (jsonData : option JsonData)
    (validation : ValidationResult) (s : State) :
  isValid validation = false →
  errors validation = [] →
  let s' := handleFileChange_settle clock file t
              (Returned (jsonData, validation)) s in
  get t (fileStatus s') = invalid
  ∧ get t (fileErrors s') = None
  ∧ Dropzone.details (dropzone_props t s') = []
  ∧ logs s' = logs s.
Proof.
  intros Hbad Herrs s'. subst s'.
  unfold handleFileChange_settle. rewrite Hbad, Herrs.
  unfold Dropzone.details, dropzone_props; simpl.
  by rewrite !get_set.
Qed.

Lemma rejection_without_errors_is_silent_witness :
  logs (handleFileChange_settle tick file_c input (rejects [])
          (app (after load_both)))
  = logs (app (after load_both)).
Proof.
  refine (proj2 (proj2 (proj2 (rejection_without_errors_is_silent tick file_c
              input None {| isValid := false; errors := [] |}
              (app (after load_both)) _ _)))).
  - reflexivity.
  - reflexivity.
Defined.

(** X15.  A DOM event on the dropzone of a slot starts an ingestion exactly
    when it carries at least one file, and then of the first file only,
    whatever the status of the slot and the drag state are: the slot goes to
    [loading] with that file selected, the bundle on display is cleared and
    one more ingestion is in flight.  Every other DOM event leaves the page
    as it is. *)
Theorem dom_event_selects_first_file
    (t : FileType) (d : bool) (e : Dropzone.DomEvent) (c : Config) :
  match Dropzone.first_file e with
  | None => dom_event t d e c = Some c
  | Some file =>
      ∃ c', dom_event t d e c = Some c'
            ∧ get t (fileStatus (app c')) = loading
            ∧ get t (files (app c')) = Some file
            ∧ outputData (app c') = None
            ∧ ingesting c' = ingesting c ++ [(t, file)]
            ∧ running c' = running c
  end.
Proof.
  unfold dom_event.
  destruct e as [| | |[[|file rest]|]|[[|file rest]|]]; simpl; try done;
    (eexists; split; [done|]; cbn [app ingesting running];
     destruct (begin_writes file t (app c)) as (_ & ? & _ & _ & ? & _);
     repeat split; try done; by destruct t).
Qed.

(** *** The reset key *)

Lemma step_resetKey e c c' :
  step e c = Some c' →
  resetKey (app c') = resetKey (app c) + (if is_reset e then 1 else 0).
Proof.
  intros Hstep.
  destruct e as [t file|i r clock|clock|j|j r clock|msg ty now|key x clock|];
    step_inv Hstep; cbn [app is_reset]; rewrite ?Nat.add_0_r; try done.
  - match goal with |- context [handleFileChange_settle _ ?f ?t _ _] =>
      by destruct (settle_writes clock f t r (app c)) as (_ & _ & _ & ? & _)
    end.
  - pose proof (run_begin_same_slots clock (app c)) as [_ Hk].
    by rewrite Hpair in Hk.
  - by destruct (run_settle_same_slots clock r (app c)) as [_ ?].
  - by destruct (download_writes key (download_name key) clock x (app c))
      as (_ & _ & _ & _ & _ & ? & _).
Qed.

(** X16.  In every reachable configuration [resetKey] is the number of
    resets made so far: the dropzones, keyed by it, are remounted by a reset
    and by nothing else. *)
Theorem resetKey_counts_resets (tr : list Event) (c : Config) :
  exec tr start = Some c →
  resetKey (app c) = length (filter (λ e, is_reset e = true) tr).
Proof.
  assert (Hgen : ∀ tr c0 c,
            exec tr c0 = Some c →
            resetKey (app c)
            = resetKey (app c0) + length (filter (λ e, is_reset e = true) tr)).
  { clear. induction tr as [|e tr IH]; intros c0 c Hexec; simpl in Hexec.
    - injection Hexec as <-. simpl. lia.
    - destruct (step e c0) as [c1|] eqn:Hstep; [|done].
      rewrite (IH _ _ Hexec), (step_resetKey _ _ _ Hstep), filter_cons.
      destruct (decide (is_reset e = true)) as [->|Hno]; simpl; [lia|].
      destruct (is_reset e); [done|lia]. }
  intros Hexec. by rewrite (Hgen _ _ _ Hexec).
Qed.

Lemma resetKey_counts_resets_witness :
  resetKey (app (after (load_both ++ [click_reset; select_file input file_c;
                                      click_reset])))
  = length (filter (λ e, is_reset e = true)
              (load_both ++ [click_reset; select_file input file_c;
                             click_reset])).
Proof.
  refine (resetKey_counts_resets _ _ _). vm_compute; reflexivity.
Defined.


(** *** What an event may change *)

(** X17.  A bundle is put on display only by a run that settles with an
    output, and then it is that output as returned; every other event
    leaves [outputData] as it is or sets it to null. *)
Theorem bundle_only_from_successful_run (e : Event) (c c' : Config) :
  step e c = Some c' →
  outputData (app c') = outputData (app c)
  ∨ outputData (app c') = None
  ∨ ∃ j output clock,
      e = process_settles j (Returned (Some output)) clock
      ∧ outputData (app c') = Some output.
Proof.
  intros Hstep.
  destruct e as [t file|i r clock|clock|j|j r clock|msg ty now|key x clock|];
    step_inv Hstep; cbn [app].
  - right; left. by destruct (begin_writes file t (app c)) as (_ & ? & _).
  - left.
    match goal with |- context [handleFileChange_settle _ ?f ?t _ _] =>
      by destruct (settle_writes clock f t r (app c)) as (_ & _ & ? & _)
    end.
  - pose proof (run_begin_writes clock (app c)) as Hw. rewrite Hpair in Hw.
    destruct Hw as (_ & _ & Hrefused & Hstarted). destruct b.
    + right; left. by apply Hstarted.
    + left. by apply Hrefused.
  - by left.
  - destruct (run_settle_writes clock r (app c)) as (_ & _ & _ & _ & ->).
    destruct r as [[output|]|msg]; [|by left|by left].
    right; right. by exists j, output, clock.
  - by left.
  - left. by destruct (download_writes key (download_name key) clock x (app c))
      as (_ & _ & _ & _ & ? & _).
  - by right; left.
Qed.

Lemma bundle_only_from_successful_run_witness :
  outputData (app (after (load_both ++ good_run)))
  = outputData (app (after (load_both ++ [click_run tick; timer_fires 0])))
  ∨ outputData (app (after (load_both ++ good_run))) = None
  ∨ ∃ j output clock,
      process_settles 0 (Returned (Some bundle)) tick
      = process_settles j (Returned (Some output)) clock
      ∧ outputData (app (after (load_both ++ good_run))) = Some output.
Proof.
  refine (bundle_only_from_successful_run
            (process_settles 0 (Returned (Some bundle)) tick)
            (after (load_both ++ [click_run tick; timer_fires 0]))
            (after (load_both ++ good_run)) _).
  vm_compute; reflexivity.
Defined.

(** X18.  The status and the cached records of a slot are written only by
    a selection of that slot, by the settling of an ingestion of that slot
    and by a reset: a run (its start, its timer, its settling), a download
    and the log sink never touch them, and neither does anything that
    happens to the other slot. *)
Theorem slot_written_only_by_own_ingestion
    (t : FileType) (e : Event) (c c' : Config) :
  step e c = Some c' →
  (get t (fileStatus (app c')) = get t (fileStatus (app c))
   ∧ get t (fileDataCache (app c')) = get t (fileDataCache (app c)))
  ∨ e = click_reset
  ∨ (∃ file, e = select_file t file)
  ∨ (∃ i r clock file,
       e = ingest_settles i r clock ∧ ingesting c !! i = Some (t, file)).
Proof.
  intros Hstep.
  destruct e as [t' file|i r clock|clock|j|j r clock|msg ty now|key x clock|];
    step_inv Hstep; cbn [app].
  - destruct (decide (t' = t)) as [->|Hne]; [right; right; left; by eexists|].
    left. destruct (begin_writes file t' (app c)) as (_ & _ & _ & -> & _ & Hf).
    by destruct (Hf t) as (-> & _).
  - match goal with
    | Hl : ingesting c !! i = Some (?t0, ?f0) |- _ =>
        destruct (decide (t0 = t)) as [->|Hne];
        [ right; right; right; by exists i, r, clock, f0
        | left; destruct (settle_writes clock f0 t0 r (app c))
                  as (_ & _ & _ & _ & _ & _ & Hf);
          by destruct (Hf t) as (-> & _ & ->) ]
    end.
  - left. pose proof (run_begin_writes clock (app c)) as Hw.
    rewrite Hpair in Hw. by destruct Hw as (-> & -> & _).
  - by left.
  - left. by destruct (run_settle_writes clock r (app c)) as (_ & -> & -> & _).
  - by left.
  - left. by destruct (download_writes key (download_name key) clock x (app c))
      as (_ & -> & _ & _ & _ & _ & -> & _).
  - by right; left.
Qed.

Lemma slot_written_only_by_own_ingestion_witness :
  (get input (fileStatus (app (after (load_both ++ good_run))))
   = get input
       (fileStatus (app (after (load_both ++ [click_run tick; timer_fires 0]))))
   ∧ get input (fileDataCache (app (after (load_both ++ good_run))))
     = get input
         (fileDataCache
            (app (after (load_both ++ [click_run tick; timer_fires 0])))))
  ∨ process_settles 0 (Returned (Some bundle)) tick = click_reset
  ∨ (∃ file, process_settles 0 (Returned (Some bundle)) tick
             = select_file input file)
  ∨ (∃ i r clock file,
       process_settles 0 (Returned (Some bundle)) tick
       = ingest_settles i r clock
       ∧ ingesting (after (load_both ++ [click_run tick; timer_fires 0])) !! i
         = Some (input, file)).
Proof.
  refine (slot_written_only_by_own_ingestion input
            (process_settles 0 (Returned (Some bundle)) tick)
            (after (load_both ++ [click_run tick; timer_fires 0]))
            (after (load_both ++ good_run)) _).
  vm_compute; reflexivity.
Defined.

End PageFacts.
